(** * immutable-quadtree: a shallow embedding and its verification

    The repository implements a persistent quadtree over axis-aligned
    rectangles on top of Immutable.js maps and lists.  This file embeds

      - structs/position.js, structs/boundary.js, structs/node.js
      - modules/boundary.js  (within, intersects)
      - modules/node.js      (addChild, addOverlappingChild, split, isLeaf,
                              clear, isSplittable)
      - modules/quadtree.js  (create, determineQuadrant, insert, batchInsert,
                              search, clear)

    Conventions of the embedding.

      - JavaScript numbers used as coordinates are idealised as exact
        rationals ([Q]); [maxChildren], [maxDepth] and [depth] are asserted
        to be integers by the source and are integers ([Z]) here.
      - An Immutable map with a fixed set of keys is a record; the field
        presence assertions of the source hold by typing.
      - The [quadrants] map is a record of four nullable slots, addressed by
        the same string tags as in the source.
      - A thrown exception is an [Err] result.  [insert] is not structurally
        recursive (a split re-inserts into freshly made children), so it is
        defined with a step budget that is computed from the tree and proved
        sufficient for every input. *)

From Stdlib Require Import ZArith QArith Lqa Lia List String Bool Permutation.
Import ListNotations.

Open Scope string_scope.
Open Scope list_scope.
Open Scope Z_scope.

(** ** Results of fallible code *)

Inductive error : Type :=
| AssertionError   (* a check-types assertion failed *)
| TypeError        (* a property was read from null or undefined *)
| FuelExhausted.   (* the step budget of the embedding ran out *)

Inductive result (A : Type) : Type :=
| Ok (a : A)
| Err (e : error).

Arguments Ok {A} a.
Arguments Err {A} e.

Definition bind {A B : Type} (r : result A) (k : A -> result B) : result B :=
  match r with
  | Ok a => k a
  | Err e => Err e
  end.

Notation "'do' a <- r ; k" := (bind r (fun a => k))
  (at level 10, a name, r at level 100, k at level 200).

(** [l.reduce((acc, i) => f(acc, i), init)] where [f] may throw: the
    accumulator is threaded from left to right and the first exception
    aborts the whole reduction. *)
Definition reduce {A B : Type} (f : A -> B -> result A) (l : list B) (init : A)
  : result A :=
  fold_left (fun acc i => do a <- acc; f a i) l (Ok init).

(** A default parameter value: used when the argument is left out. *)
Definition default {A : Type} (d : A) (o : option A) : A :=
  match o with
  | Some v => v
  | None => d
  end.

(** ** Comparisons of numbers *)

Definition Qltb (a b : Q) : bool := (Qnum a * QDen b <? Qnum b * QDen a)%Z.
Definition Qgtb (a b : Q) : bool := Qltb b a.
Definition Qleb (a b : Q) : bool := Qle_bool a b.
Definition Qgeb (a b : Q) : bool := Qle_bool b a.

(** ** The data model *)

(** structs/position.js and structs/boundary.js: a boundary is a position
    merged with a width and a height. *)
Record PositionT : Type := mkPosition { pos_x : Q; pos_y : Q }.

Record BoundaryT : Type := mkBoundary { x : Q; y : Q; width : Q; height : Q }.

(** The four slots of the [quadrants] map; [None] is JavaScript's [null]. *)
Record Quadrants (A : Type) : Type := mkQuadrants {
  top_left : option A;
  top_right : option A;
  bottom_left : option A;
  bottom_right : option A
}.

Arguments mkQuadrants {A}.
Arguments top_left {A}.
Arguments top_right {A}.
Arguments bottom_left {A}.
Arguments bottom_right {A}.

(** structs/node.js: the map built by [node]. *)
#[warnings="-register-all"] Inductive NodeT : Type := mkNode {
  boundary : BoundaryT;
  maxChildren : Z;
  maxDepth : Z;
  depth : Z;
  quadrants : Quadrants NodeT;
  children : list BoundaryT;
  overlappingChildren : list BoundaryT
}.

(** *** Map operations on the quadrants *)

(** [q.get(key)]: [None] also stands for [undefined] (an unknown key). *)
Definition qget {A : Type} (key : string) (q : Quadrants A) : option A :=
  if String.eqb key "top-left" then top_left q
  else if String.eqb key "top-right" then top_right q
  else if String.eqb key "bottom-left" then bottom_left q
  else if String.eqb key "bottom-right" then bottom_right q
  else None.

(** [q.set(key, v)].  The record has no room for a fifth key; the only other
    key the source can produce is the empty string of [determineQuadrant],
    which is never passed to [set]. *)
Definition qset {A : Type} (key : string) (v : option A) (q : Quadrants A)
  : Quadrants A :=
  if String.eqb key "top-left" then
    mkQuadrants v (top_right q) (bottom_left q) (bottom_right q)
  else if String.eqb key "top-right" then
    mkQuadrants (top_left q) v (bottom_left q) (bottom_right q)
  else if String.eqb key "bottom-left" then
    mkQuadrants (top_left q) (top_right q) v (bottom_right q)
  else if String.eqb key "bottom-right" then
    mkQuadrants (top_left q) (top_right q) (bottom_left q) v
  else q.

(** [q.update(key, f)] for a total [f]. *)
Definition qupdate {A : Type} (key : string) (f : option A -> option A)
  (q : Quadrants A) : Quadrants A :=
  qset key (f (qget key q)) q.

(** [q.map(f)] for a total [f]. *)
Definition qmap {A B : Type} (f : option A -> option B) (q : Quadrants A)
  : Quadrants B :=
  mkQuadrants (f (top_left q)) (f (top_right q))
              (f (bottom_left q)) (f (bottom_right q)).

(** [q.map(f)] for an [f] that may throw; the slots are visited in insertion
    order. *)
Definition qmapM {A B : Type} (f : option A -> result (option B))
  (q : Quadrants A) : result (Quadrants B) :=
  do tl <- f (top_left q);
  do tr <- f (top_right q);
  do bl <- f (bottom_left q);
  do br <- f (bottom_right q);
  Ok (mkQuadrants tl tr bl br).

(** [n.update('quadrants', ...)], [n.update('children', ...)] and
    [n.update('overlappingChildren', ...)]. *)
Definition set_quadrants (n : NodeT) (q : Quadrants NodeT) : NodeT :=
  mkNode (boundary n) (maxChildren n) (maxDepth n) (depth n) q
         (children n) (overlappingChildren n).

Definition set_children (n : NodeT) (l : list BoundaryT) : NodeT :=
  mkNode (boundary n) (maxChildren n) (maxDepth n) (depth n) (quadrants n)
         l (overlappingChildren n).

Definition set_overlappingChildren (n : NodeT) (l : list BoundaryT) : NodeT :=
  mkNode (boundary n) (maxChildren n) (maxDepth n) (depth n) (quadrants n)
         (children n) l.

(** ** structs/ *)

Module Structs.

(** [position(x = 0, y = 0)] *)
Definition position (ox oy : option Q) : PositionT :=
  mkPosition (default 0%Q ox) (default 0%Q oy).

(** [boundary(x, y, width = 0, height = 0)]: [map({ width, height })]
    merged with [position(x, y)]. *)
Definition boundary (ox oy : option Q) (owidth oheight : option Q)
  : BoundaryT :=
  let p := position ox oy in
  mkBoundary (pos_x p) (pos_y p) (default 0%Q owidth) (default 0%Q oheight).

(** [node(boundary, maxChildren = 4, maxDepth = 4, depth = 0)] *)
Definition node (b : BoundaryT) (omaxChildren omaxDepth odepth : option Z)
  : result NodeT :=
  let maxChildren := default 4 omaxChildren in
  let maxDepth := default 4 omaxDepth in
  let depth := default 0 odepth in
  if negb (maxChildren >? 0) then Err AssertionError
  else if negb (maxDepth >? 0) then Err AssertionError
  else if negb (depth >=? 0) then Err AssertionError
  else
    let quadrants := mkQuadrants None None None None in
    Ok (mkNode b maxChildren maxDepth depth quadrants [] []).

End Structs.

(** ** modules/boundary.js *)

Module Boundary.

Definition within (bound item : BoundaryT) : bool :=
  Qgeb (x item) (x bound) &&
  Qleb (x item + width item) (x bound + width bound) &&
  Qgeb (y item) (y bound) &&
  Qleb (y item + height item) (y bound + height bound).

Definition intersects (bound1 bound2 : BoundaryT) : bool :=
  Qltb (x bound1) (x bound2 + width bound2) &&
  Qgtb (x bound1 + width bound1) (x bound2) &&
  Qltb (y bound1) (y bound2 + height bound2) &&
  Qgtb (y bound1 + height bound1) (y bound2).

End Boundary.

(** ** modules/node.js *)

Module Node.

Definition addChild (n : NodeT) (item : BoundaryT) : NodeT :=
  set_children n (children n ++ [item]).

Definition addOverlappingChild (n : NodeT) (item : BoundaryT) : NodeT :=
  set_overlappingChildren n (overlappingChildren n ++ [item]).

(** The calls [boundary(x, y, halfheight, halfwidth)] are transcribed with
    the argument order of the source, whose [boundary] takes the width
    before the height. *)
Definition split (n : NodeT) : result NodeT :=
  let '(mkBoundary x y width height) := boundary n in
  let halfwidth := (width / 2)%Q in
  let halfheight := (height / 2)%Q in
  let hmid := (x + halfwidth)%Q in
  let vmid := (y + halfheight)%Q in
  let depth := depth n + 1 in
  do tl <- Structs.node
             (Structs.boundary (Some x) (Some y)
                               (Some halfheight) (Some halfwidth))
             (Some (maxChildren n)) (Some (maxDepth n)) (Some depth);
  do tr <- Structs.node
             (Structs.boundary (Some hmid) (Some y)
                               (Some halfheight) (Some halfwidth))
             (Some (maxChildren n)) (Some (maxDepth n)) (Some depth);
  do bl <- Structs.node
             (Structs.boundary (Some x) (Some vmid)
                               (Some halfheight) (Some halfwidth))
             (Some (maxChildren n)) (Some (maxDepth n)) (Some depth);
  do br <- Structs.node
             (Structs.boundary (Some hmid) (Some vmid)
                               (Some halfheight) (Some halfwidth))
             (Some (maxChildren n)) (Some (maxDepth n)) (Some depth);
  Ok (set_quadrants n
        (qset "bottom-right" (Some br)
        (qset "bottom-left" (Some bl)
        (qset "top-right" (Some tr)
        (qset "top-left" (Some tl) (quadrants n)))))).

(** [check.null(n.get('quadrants').get('top-left'))] *)
Definition isLeaf (n : NodeT) : bool :=
  match qget "top-left" (quadrants n) with
  | None => true
  | Some _ => false
  end.

(** [clear(l)] on a null slot reads [l.has] and throws. *)
Fixpoint clear (n : NodeT) : result NodeT :=
  let clear_slot (l : option NodeT) : result (option NodeT) :=
    match l with
    | None => Err TypeError
    | Some c => do c' <- clear c; Ok (Some c')
    end in
  do removedNodes <-
    (if negb (isLeaf n) then
       do q <- qmapM clear_slot (quadrants n);
       Ok (set_quadrants n (qmap (fun _ => None) q))
     else Ok n);
  Ok (set_overlappingChildren (set_children removedNodes []) []).

Definition isSplittable (n : NodeT) : bool :=
  let len := Z.of_nat (List.length (children n)) in
  (len >? maxChildren n) && (depth n <? maxDepth n).

End Node.

(** ** modules/quadtree.js *)

Module Quadtree.

(** [create(boundary, maxChildren = 4, maxDepth = 4)] *)
Definition create (b : BoundaryT) (omaxChildren omaxDepth : option Z)
  : result NodeT :=
  Structs.node b (Some (default 4 omaxChildren)) (Some (default 4 omaxDepth))
               (Some 0).

Definition determineQuadrant (n : NodeT) (item : BoundaryT) : string :=
  let b := boundary n in
  let right := Qgtb (x item) (x b + width b / 2) in
  let left := negb right in
  let bottom := Qgtb (y item) (y b + height b / 2) in
  let top := negb bottom in
  if top && left then "top-left"
  else if top && right then "top-right"
  else if bottom && left then "bottom-left"
  else if bottom && right then "bottom-right"
  else "".

(** [insert] with a budget of nested calls.  In the non-leaf branch
    [quadrant.get('boundary')] throws when the selected slot is null or
    undefined. *)
Fixpoint insert_fuel (fuel : nat) (n : NodeT) (item : BoundaryT)
  : result NodeT :=
  match fuel with
  | O => Err FuelExhausted
  | S fuel' =>
    if negb (Node.isLeaf n) then
      let direction := determineQuadrant n item in
      match qget direction (quadrants n) with
      | None => Err TypeError
      | Some quadrant =>
        if Boundary.within (boundary quadrant) item then
          do d <- insert_fuel fuel' quadrant item;
          Ok (set_quadrants n (qset direction (Some d) (quadrants n)))
        else Ok (Node.addOverlappingChild n item)
      end
    else
      let updatedNode := Node.addChild n item in
      if negb (Node.isSplittable updatedNode) then Ok updatedNode
      else
        do splitNode <- Node.split updatedNode;
        let children := children splitNode in
        do r <- reduce (fun acc i => insert_fuel fuel' acc i) children splitNode;
        Ok (set_children r [])
  end.

(** The number of nested [insert] calls a node can need: one per level on
    the way down to a leaf, and two per level a leaf may still be split
    (the call on the split node and the call on its fresh child). *)
Fixpoint gas (n : NodeT) : nat :=
  let slot (o : option NodeT) : nat :=
    match o with
    | None => O
    | Some c => gas c
    end in
  if Node.isLeaf n then S (2 * Z.to_nat (maxDepth n - depth n))
  else
    let q := quadrants n in
    S (Nat.max (Nat.max (slot (top_left q)) (slot (top_right q)))
               (Nat.max (slot (bottom_left q)) (slot (bottom_right q)))).

Definition insert (n : NodeT) (item : BoundaryT) : result NodeT :=
  insert_fuel (gas n) n item.

Definition batchInsert (n : NodeT) (items : list BoundaryT) : result NodeT :=
  reduce (fun acc item => insert acc item) items n.

(** [search(quadrants.get(k), item)] on a null slot reads [n.has] and
    throws. *)
Fixpoint search (n : NodeT) (item : BoundaryT) : result (list BoundaryT) :=
  let search_slot (o : option NodeT) : result (list BoundaryT) :=
    match o with
    | None => Err TypeError
    | Some c => search c item
    end in
  if negb (Boundary.intersects (boundary n) item) then Ok []
  else
    let points :=
      filter (fun x => Boundary.intersects item x)
             (children n ++ overlappingChildren n) in
    if Node.isLeaf n then Ok points
    else
      let quadrants := quadrants n in
      do r1 <- search_slot (qget "top-left" quadrants);
      do r2 <- search_slot (qget "top-right" quadrants);
      do r3 <- search_slot (qget "bottom-left" quadrants);
      do r4 <- search_slot (qget "bottom-right" quadrants);
      Ok ((((points ++ r1) ++ r2) ++ r3) ++ r4).

(** [clear(n)]: the four slots are cleared recursively and then set to
    null. *)
Fixpoint clear_node (n : NodeT) : NodeT :=
  let clear (o : option NodeT) : option NodeT :=
    match o with
    | None => None
    | Some c => Some (clear_node c)
    end in
  let clearList (l : list BoundaryT) : list BoundaryT := [] in
  set_quadrants
    (set_overlappingChildren
       (set_children n (clearList (children n)))
       (clearList (overlappingChildren n)))
    (qset "bottom-right" None
    (qset "bottom-left" None
    (qset "top-right" None
    (qset "top-left" None
    (qupdate "bottom-right" clear
    (qupdate "bottom-left" clear
    (qupdate "top-right" clear
    (qupdate "top-left" clear (quadrants n))))))))).

Definition clear (n : option NodeT) : option NodeT :=
  match n with
  | None => None
  | Some n => Some (clear_node n)
  end.

End Quadtree.

(** * Specification vocabulary *)

(** ** Induction on nodes *)

(** [P] holds of the node in a slot, if there is one. *)
Definition slot_all (P : NodeT -> Prop) (o : option NodeT) : Prop :=
  match o with
  | None => True
  | Some c => P c
  end.

Definition quadrants_all (P : NodeT -> Prop) (q : Quadrants NodeT) : Prop :=
  slot_all P (top_left q) /\ slot_all P (top_right q) /\
  slot_all P (bottom_left q) /\ slot_all P (bottom_right q).

Section NodeInduction.
Variable P : NodeT -> Prop.
Hypothesis step : forall n, quadrants_all P (quadrants n) -> P n.

Fixpoint NodeT_nested_ind (n : NodeT) : P n :=
  match n with
  | mkNode b mc md d q ch ov =>
    step (mkNode b mc md d q ch ov)
      (match q as q0 return quadrants_all P q0 with
       | mkQuadrants tl tr bl br =>
         let on_slot (o : option NodeT) : slot_all P o :=
           match o as o0 return slot_all P o0 with
           | None => I
           | Some c => NodeT_nested_ind c
           end in
         conj (on_slot tl) (conj (on_slot tr) (conj (on_slot bl) (on_slot br)))
       end)
  end.
End NodeInduction.

(** The four keys of the quadrants map. *)
Definition is_tag (k : string) : Prop :=
  k = "top-left" \/ k = "top-right" \/ k = "bottom-left" \/ k = "bottom-right".

Import Quadtree.

(** ** What [split] makes *)

(** The quadrants of a leaf: four null slots. *)
Definition empty_quadrants : Quadrants NodeT := mkQuadrants None None None None.

(** The empty leaf that [split] places in a slot of [n]. *)
Definition fresh (n : NodeT) (b : BoundaryT) : NodeT :=
  mkNode b (maxChildren n) (maxDepth n) (depth n + 1) empty_quadrants [] [].

(** The four child boundaries as [split] computes them. *)
Definition quarter (n : NodeT) (right bottom : bool) : BoundaryT :=
  let b := boundary n in
  mkBoundary (if right then x b + width b / 2 else x b)%Q
             (if bottom then y b + height b / 2 else y b)%Q
             (height b / 2)%Q (width b / 2)%Q.

(** The quadrants that [split] installs. *)
Definition split_quadrants (n : NodeT) : Quadrants NodeT :=
  mkQuadrants (Some (fresh n (quarter n false false)))
              (Some (fresh n (quarter n true false)))
              (Some (fresh n (quarter n false true)))
              (Some (fresh n (quarter n true true))).

(** The thresholds that [node] asserts. *)
Definition valid_params (n : NodeT) : Prop :=
  0 < maxChildren n /\ 0 < maxDepth n /\ 0 <= depth n.

(** ** The step budget and the equation of [insert] *)

(** The step budget of the node in a slot. *)
Definition slot_gas (o : option NodeT) : nat :=
  match o with
  | None => O
  | Some c => gas c
  end.

(** [m] needs fewer steps than [n]. *)
Definition below (n m : NodeT) : Prop := (gas m < gas n)%nat.

(** One unfolding of [insert], with the nested calls abstracted. *)
Definition insert_body (rec : NodeT -> BoundaryT -> result NodeT)
  (n : NodeT) (item : BoundaryT) : result NodeT :=
  if negb (Node.isLeaf n) then
    let direction := determineQuadrant n item in
    match qget direction (quadrants n) with
    | None => Err TypeError
    | Some quadrant =>
      if Boundary.within (boundary quadrant) item then
        do d <- rec quadrant item;
        Ok (set_quadrants n (qset direction (Some d) (quadrants n)))
      else Ok (Node.addOverlappingChild n item)
    end
  else
    let updatedNode := Node.addChild n item in
    if negb (Node.isSplittable updatedNode) then Ok updatedNode
    else
      do splitNode <- Node.split updatedNode;
      do r <- reduce rec (children splitNode) splitNode;
      Ok (set_children r []).

(** ** Well-formed trees and their items *)

(** All four slots are populated. *)
Definition full {A : Type} (q : Quadrants A) : Prop :=
  top_left q <> None /\ top_right q <> None /\
  bottom_left q <> None /\ bottom_right q <> None.

(** [c] carries the thresholds of its parent [n], one level down. *)
Definition child_of (n c : NodeT) : Prop :=
  depth c = depth n + 1 /\ maxDepth c = maxDepth n /\
  maxChildren c = maxChildren n.

(** The shape of the trees the module builds: valid thresholds, a depth
    within [maxDepth], and quadrants that are all absent or all present. *)
Fixpoint wf (n : NodeT) : Prop :=
  (0 < maxChildren n /\ 0 < maxDepth n /\ 0 <= depth n <= maxDepth n) /\
  (quadrants n = empty_quadrants \/ full (quadrants n)) /\
  quadrants_all (fun c => child_of n c /\ wf c) (quadrants n).

(** Concatenation over the four slots, in the order of the source. *)
Definition slot_list {A : Type} (f : NodeT -> list A) (o : option NodeT)
  : list A :=
  match o with
  | None => []
  | Some c => f c
  end.

Definition quadrants_list {A : Type} (f : NodeT -> list A)
  (q : Quadrants NodeT) : list A :=
  slot_list f (top_left q) ++ slot_list f (top_right q) ++
  slot_list f (bottom_left q) ++ slot_list f (bottom_right q).

(** Every item held anywhere in the tree. *)
Fixpoint stored (n : NodeT) : list BoundaryT :=
  children n ++ overlappingChildren n ++ quadrants_list stored (quadrants n).

(** Every node's boundary contains all the items held below it. *)
Fixpoint covers (n : NodeT) : Prop :=
  Forall (fun i => Boundary.within (boundary n) i = true) (stored n) /\
  quadrants_all covers (quadrants n).

(** [n'] has the boundary, the thresholds and the depth of [n]. *)
Definition same_frame (n n' : NodeT) : Prop :=
  boundary n' = boundary n /\ maxChildren n' = maxChildren n /\
  maxDepth n' = maxDepth n /\ depth n' = depth n.

(** The items held below the quadrants of [n] lie within the boundaries of
    the nodes that hold them; nothing is said of the items of [n] itself. *)
Definition covers_below (n : NodeT) : Prop :=
  quadrants_all covers (quadrants n).

(** What [insert n item = Ok n'] guarantees on a well-formed [n]. *)
Definition insert_post (n : NodeT) (item : BoundaryT) (n' : NodeT) : Prop :=
  wf n' /\ same_frame n n' /\
  (Node.isLeaf n = false ->
   Node.isLeaf n' = false /\ children n' = children n) /\
  (Node.isLeaf n = true ->
   if Node.isSplittable (Node.addChild n item)
   then Node.isLeaf n' = false /\ children n' = []
   else n' = Node.addChild n item) /\
  Permutation (stored n') (item :: stored n) /\
  (covers_below n -> covers_below n').

(** The recursive call of [search] on a slot. *)
Definition search_slot (item : BoundaryT) (o : option NodeT)
  : result (list BoundaryT) :=
  match o with
  | None => Err TypeError
  | Some c => search c item
  end.

(** ** Trees built through the public interface *)

(** [built t its]: [t] results from [create] followed by calls of [insert],
    [batchInsert] and [clear]; [its] lists the items inserted since the tree
    was last empty, in order. *)
Inductive built : NodeT -> list BoundaryT -> Prop :=
| built_create (b : BoundaryT) (omc omd : option Z) (t : NodeT) :
    create b omc omd = Ok t -> built t []
| built_insert (t : NodeT) (its : list BoundaryT) (item : BoundaryT) (t' : NodeT) :
    built t its -> insert t item = Ok t' -> built t' (its ++ [item])
| built_batchInsert (t : NodeT) (its items : list BoundaryT) (t' : NodeT) :
    built t its -> batchInsert t items = Ok t' -> built t' (its ++ items)
| built_clear (t : NodeT) (its : list BoundaryT) (t' : NodeT) :
    built t its -> clear (Some t) = Some t' -> built t' [].

(** Every node of the tree, the root first. *)
Fixpoint nodes (n : NodeT) : list NodeT :=
  n :: quadrants_list nodes (quadrants n).

(** The number of levels below a node. *)
Fixpoint levels (n : NodeT) : nat :=
  let slot (o : option NodeT) : nat :=
    match o with
    | None => O
    | Some c => S (levels c)
    end in
  let q := quadrants n in
  Nat.max (Nat.max (slot (top_left q)) (slot (top_right q)))
          (Nat.max (slot (bottom_left q)) (slot (bottom_right q))).

(** "Calling [insert] once per item, in order." *)
Fixpoint insert_each (n : NodeT) (items : list BoundaryT) : result NodeT :=
  match items with
  | [] => Ok n
  | i :: rest => do n' <- insert n i; insert_each n' rest
  end.

(** ** Concrete inputs *)

(** [boundary(a, b, c, d)] with integer arguments. *)
Definition rect (a b c d : Z) : BoundaryT :=
  Structs.boundary (Some (inject_Z a)) (Some (inject_Z b))
                   (Some (inject_Z c)) (Some (inject_Z d)).

(** The scenario of the README and of the test suite. *)
Definition scenario_items : list BoundaryT :=
  [rect 5 6 1 2; rect 67 24 1 1; rect 149 121 2 1; rect 189 76 1 1;
   rect 25 195 1 2; rect 99 0 5 2; rect 64 120 5 7; rect 112 57 2 2;
   rect 49 49 2 2].

Definition scenario_root : NodeT :=
  mkNode (rect 0 0 200 200) 4 4 0 empty_quadrants [] [].

Definition scenario_tree : NodeT :=
  Eval vm_compute in
    match insert_each scenario_root scenario_items with
    | Ok t => t
    | Err _ => scenario_root
    end.

Definition scenario_query : BoundaryT := rect 50 50 100 100.

(** A 10 x 10 plane holding one item. *)
Definition small_root : NodeT :=
  mkNode (rect 0 0 10 10) 4 4 0 empty_quadrants [] [].

Definition small_tree : NodeT :=
  mkNode (rect 0 0 10 10) 4 4 0 empty_quadrants [rect 1 1 2 2] [].

(** The same plane holding one item that lies outside of it. *)
Definition stray_tree : NodeT :=
  mkNode (rect 0 0 10 10) 4 4 0 empty_quadrants [rect 20 20 1 1] [].

(** A plane that is wider than high. *)
Definition wide_node : NodeT :=
  mkNode (rect 0 0 100 10) 4 4 0 empty_quadrants [] [].

(** ** Further vocabulary *)

(** [i] did not fit the quadrant that [determineQuadrant] selects for it
    in [n]. *)
Definition straddles (n : NodeT) (i : BoundaryT) : Prop :=
  exists c,
    qget (determineQuadrant n i) (quadrants n) = Some c /\
    Boundary.within (boundary c) i = false.

(** Where a node keeps its items: a leaf has no overlapping items and, while
    it may still be split, at most [maxChildren] direct items; the
    overlapping items of a split node all straddle. *)
Definition tidy_here (n : NodeT) : Prop :=
  (Node.isLeaf n = true ->
   overlappingChildren n = [] /\
   (depth n < maxDepth n ->
    Z.of_nat (List.length (children n)) <= maxChildren n)) /\
  (Node.isLeaf n = false -> Forall (straddles n) (overlappingChildren n)).

(** A split node has no direct items. *)
Definition no_direct (n : NodeT) : Prop :=
  Node.isLeaf n = false -> children n = [].

Fixpoint tidy (n : NodeT) : Prop :=
  tidy_here n /\ no_direct n /\ quadrants_all tidy (quadrants n).

Definition tidy_below (n : NodeT) : Prop :=
  quadrants_all tidy (quadrants n).



(** The 10 x 10 plane holding two items in the given order. *)
Definition pair_tree (i j : BoundaryT) : NodeT :=
  mkNode (rect 0 0 10 10) 4 4 0 empty_quadrants [i; j] [].

(** * Verification *)

(** ** Numbers *)

Lemma Qltb_lt (a b : Q) : Qltb a b = true <-> (a < b)%Q.
Proof. unfold Qltb, Qlt. apply Z.ltb_lt. Qed.

Lemma Qgtb_lt (a b : Q) : Qgtb a b = true <-> (b < a)%Q.
Proof. unfold Qgtb. apply Qltb_lt. Qed.

Lemma Qleb_le (a b : Q) : Qleb a b = true <-> (a <= b)%Q.
Proof. unfold Qleb. apply Qle_bool_iff. Qed.

Lemma Qgeb_le (a b : Q) : Qgeb a b = true <-> (b <= a)%Q.
Proof. unfold Qgeb. apply Qle_bool_iff. Qed.

(** ** Results and reductions *)

Lemma fold_left_Err {A B : Type} (f : A -> B -> result A) (l : list B) (e : error) :
  fold_left (fun acc i => do a <- acc; f a i) l (Err e) = Err e.
Proof. induction l as [|i l IH]; simpl; auto. Qed.

Lemma reduce_nil {A B : Type} (f : A -> B -> result A) (init : A) :
  reduce f [] init = Ok init.
Proof. reflexivity. Qed.

Lemma reduce_cons {A B : Type} (f : A -> B -> result A) (i : B) (l : list B)
  (init : A) :
  reduce f (i :: l) init = do a <- f init i; reduce f l a.
Proof.
  unfold reduce. simpl. destruct (f init i) as [a|e]; simpl; auto.
  apply fold_left_Err.
Qed.

Lemma reduce_app {A B : Type} (f : A -> B -> result A) (l1 l2 : list B)
  (init : A) :
  reduce f (l1 ++ l2) init = do a <- reduce f l1 init; reduce f l2 a.
Proof.
  revert init. induction l1 as [|i l1 IH]; intros init; simpl.
  - reflexivity.
  - rewrite !reduce_cons. destruct (f init i) as [a|e]; simpl; auto.
Qed.

Section ReduceInvariant.
Context {A B : Type} (I : A -> Prop) (f : A -> B -> result A).
Hypothesis I_step : forall a b a', I a -> f a b = Ok a' -> I a'.

Lemma reduce_inv (l : list B) (a a' : A) :
  I a -> reduce f l a = Ok a' -> I a'.
Proof.
  revert a. induction l as [|i l IH]; intros a Ha.
  - rewrite reduce_nil. intros [= <-]. exact Ha.
  - rewrite reduce_cons. destruct (f a i) as [a1|e] eqn:E; simpl.
    + apply IH. eapply I_step; eauto.
    + discriminate.
Qed.

Lemma reduce_ext (g : A -> B -> result A) (l : list B) (a : A) :
  (forall a b, I a -> f a b = g a b) ->
  I a -> reduce f l a = reduce g l a.
Proof.
  intros Hfg. revert a. induction l as [|i l IH]; intros a Ha.
  - reflexivity.
  - rewrite !reduce_cons, <- (Hfg a i Ha).
    destruct (f a i) as [a1|e] eqn:E; simpl; auto.
    apply IH. eapply I_step; eauto.
Qed.

Lemma reduce_not_err (err : error) (l : list B) (a : A) :
  (forall a b, I a -> f a b <> Err err) ->
  I a -> reduce f l a <> Err err.
Proof.
  intros Hf. revert a. induction l as [|i l IH]; intros a Ha.
  - rewrite reduce_nil. discriminate.
  - rewrite reduce_cons. destruct (f a i) as [a1|e] eqn:E; simpl.
    + apply IH. eapply I_step; eauto.
    + rewrite <- E. apply Hf, Ha.
Qed.

Lemma reduce_total (l : list B) (a : A) :
  (forall a b, I a -> exists a', f a b = Ok a') ->
  I a -> exists a', reduce f l a = Ok a' /\ I a'.
Proof.
  intros Hf. revert a. induction l as [|i l IH]; intros a Ha.
  - exists a. split; auto.
  - rewrite reduce_cons. destruct (Hf a i Ha) as [a1 E]. rewrite E. simpl.
    apply IH. eapply I_step; eauto.
Qed.
End ReduceInvariant.

(** ** The quadrants map *)

Lemma qget_Some_tag {A : Type} (k : string) (q : Quadrants A) (c : A) :
  qget k q = Some c -> is_tag k.
Proof.
  unfold qget, is_tag.
  destruct (String.eqb_spec k "top-left"); auto.
  destruct (String.eqb_spec k "top-right"); auto.
  destruct (String.eqb_spec k "bottom-left"); auto.
  destruct (String.eqb_spec k "bottom-right"); auto.
  discriminate.
Qed.

Ltac tag_cases H :=
  destruct H as [H | [H | [H | H]]]; subst.

Lemma qget_qset_same {A : Type} (k : string) (v : option A) (q : Quadrants A) :
  is_tag k -> qget k (qset k v q) = v.
Proof. intros H. tag_cases H; reflexivity. Qed.

Lemma qget_qset_other {A : Type} (k k' : string) (v : option A)
  (q : Quadrants A) :
  is_tag k -> is_tag k' -> k <> k' -> qget k' (qset k v q) = qget k' q.
Proof.
  intros H H' Hne. tag_cases H; tag_cases H'; try reflexivity; congruence.
Qed.

Lemma Quadrants_eta {A : Type} (q : Quadrants A) :
  q = mkQuadrants (top_left q) (top_right q) (bottom_left q) (bottom_right q).
Proof. destruct q; reflexivity. Qed.

Lemma qset_qget_id {A : Type} (k : string) (q : Quadrants A) :
  qset k (qget k q) q = q.
Proof.
  unfold qset, qget.
  destruct (String.eqb k "top-left"); [destruct q; reflexivity|].
  destruct (String.eqb k "top-right"); [destruct q; reflexivity|].
  destruct (String.eqb k "bottom-left"); [destruct q; reflexivity|].
  destruct (String.eqb k "bottom-right"); [destruct q; reflexivity|].
  reflexivity.
Qed.

(** ** Nodes *)

Lemma node_Ok (b : BoundaryT) (mc md d : Z) :
  0 < mc -> 0 < md -> 0 <= d ->
  Structs.node b (Some mc) (Some md) (Some d)
  = Ok (mkNode b mc md d empty_quadrants [] []).
Proof.
  intros Hmc Hmd Hd. unfold Structs.node, default.
  destruct (Z.gtb_spec mc 0); [|lia].
  destruct (Z.gtb_spec md 0); [|lia].
  destruct (Z.geb_spec d 0); [|lia].
  reflexivity.
Qed.

Lemma node_inv (b : BoundaryT) (omc omd od : option Z) (n : NodeT) :
  Structs.node b omc omd od = Ok n ->
  n = mkNode b (default 4 omc) (default 4 omd) (default 0 od)
             empty_quadrants [] []
  /\ 0 < default 4 omc /\ 0 < default 4 omd /\ 0 <= default 0 od.
Proof.
  unfold Structs.node.
  destruct (Z.gtb_spec (default 4 omc) 0); [|discriminate].
  destruct (Z.gtb_spec (default 4 omd) 0); [|discriminate].
  destruct (Z.geb_spec (default 0 od) 0); [|discriminate].
  simpl. intros [= <-]. repeat split; lia.
Qed.

Lemma node_Err (b : BoundaryT) (omc omd od : option Z) (e : error) :
  Structs.node b omc omd od = Err e -> e = AssertionError.
Proof.
  unfold Structs.node.
  repeat match goal with |- context [if ?c then _ else _] => destruct c end;
    simpl; congruence.
Qed.

Lemma split_Ok (n : NodeT) :
  0 < maxChildren n -> 0 < maxDepth n -> 0 <= depth n + 1 ->
  Node.split n = Ok (set_quadrants n (split_quadrants n)).
Proof.
  intros Hmc Hmd Hd. unfold Node.split.
  destruct (boundary n) as [bx by_ bw bh] eqn:Eb.
  rewrite !node_Ok by assumption. simpl.
  unfold split_quadrants, fresh, quarter, Structs.boundary, Structs.position.
  rewrite Eb. reflexivity.
Qed.

Lemma split_inv (n s : NodeT) :
  Node.split n = Ok s ->
  s = set_quadrants n (split_quadrants n)
  /\ 0 < maxChildren n /\ 0 < maxDepth n /\ 0 <= depth n + 1.
Proof.
  intros H.
  assert (Hv : 0 < maxChildren n /\ 0 < maxDepth n /\ 0 <= depth n + 1).
  { unfold Node.split in H. destruct (boundary n) as [bx by_ bw bh].
    match type of H with
    | bind ?r _ = _ => destruct r as [tl|e] eqn:E; [|discriminate]
    end.
    apply node_inv in E. simpl in E. tauto. }
  split; [|exact Hv]. destruct Hv as (Hmc & Hmd & Hd).
  rewrite split_Ok in H by assumption. congruence.
Qed.

Lemma split_Err (n : NodeT) (e : error) :
  Node.split n = Err e -> e = AssertionError.
Proof.
  unfold Node.split. destruct (boundary n) as [bx by_ bw bh].
  repeat match goal with
  | |- bind ?r _ = _ -> _ =>
      let E := fresh "E" in
      destruct r as [?|?] eqn:E;
      [simpl | apply node_Err in E; simpl; congruence]
  end.
  discriminate.
Qed.

Lemma isLeaf_top_left (n : NodeT) :
  Node.isLeaf n = match top_left (quadrants n) with None => true | Some _ => false end.
Proof. reflexivity. Qed.

Lemma isLeaf_set_children (n : NodeT) (l : list BoundaryT) :
  Node.isLeaf (set_children n l) = Node.isLeaf n.
Proof. reflexivity. Qed.

Lemma isLeaf_set_overlappingChildren (n : NodeT) (l : list BoundaryT) :
  Node.isLeaf (set_overlappingChildren n l) = Node.isLeaf n.
Proof. reflexivity. Qed.

Lemma isLeaf_qset (n : NodeT) (k : string) (d : NodeT) :
  Node.isLeaf n = false ->
  Node.isLeaf (set_quadrants n (qset k (Some d) (quadrants n))) = false.
Proof.
  rewrite !isLeaf_top_left. simpl.
  destruct (quadrants n) as [[tl|] tr bl br]; simpl; [intros _|discriminate].
  unfold qset.
  repeat match goal with
  | |- context [String.eqb ?a ?b] => destruct (String.eqb a b)
  end; reflexivity.
Qed.

(** ** The step budget of [insert] *)

Lemma gas_eq (n : NodeT) :
  gas n =
  if Node.isLeaf n then S (2 * Z.to_nat (maxDepth n - depth n))
  else S (Nat.max (Nat.max (slot_gas (top_left (quadrants n)))
                           (slot_gas (top_right (quadrants n))))
                  (Nat.max (slot_gas (bottom_left (quadrants n)))
                           (slot_gas (bottom_right (quadrants n))))).
Proof. destruct n; reflexivity. Qed.

Lemma gas_set_children (n : NodeT) (l : list BoundaryT) :
  gas (set_children n l) = gas n.
Proof. rewrite !gas_eq. reflexivity. Qed.

Lemma gas_set_overlappingChildren (n : NodeT) (l : list BoundaryT) :
  gas (set_overlappingChildren n l) = gas n.
Proof. rewrite !gas_eq. reflexivity. Qed.

Lemma gas_qget (n : NodeT) (k : string) (c : NodeT) :
  Node.isLeaf n = false -> qget k (quadrants n) = Some c ->
  (S (gas c) <= gas n)%nat.
Proof.
  intros Hl Hq. rewrite (gas_eq n), Hl.
  pose proof (qget_Some_tag _ _ _ Hq) as Ht.
  tag_cases Ht; unfold qget in Hq; simpl in Hq; rewrite Hq; simpl; lia.
Qed.

Lemma gas_qset (n : NodeT) (k : string) (c d : NodeT) :
  Node.isLeaf n = false -> qget k (quadrants n) = Some c ->
  (gas d <= gas c)%nat ->
  (gas (set_quadrants n (qset k (Some d) (quadrants n))) <= gas n)%nat.
Proof.
  intros Hl Hq Hd.
  rewrite (gas_eq (set_quadrants _ _)), isLeaf_qset by assumption.
  rewrite (gas_eq n), Hl.
  pose proof (qget_Some_tag _ _ _ Hq) as Ht.
  tag_cases Ht; unfold qget in Hq; simpl in Hq; rewrite Hq; simpl; lia.
Qed.

Lemma gas_split (n : NodeT) :
  Node.isLeaf n = true -> depth n < maxDepth n ->
  S (gas (set_quadrants n (split_quadrants n))) = gas n.
Proof.
  intros Hl Hd. rewrite (gas_eq n), Hl.
  rewrite gas_eq. unfold Node.isLeaf. simpl.
  rewrite !Nat.max_id. lia.
Qed.

Lemma insert_fuel_S (fuel : nat) (n : NodeT) (item : BoundaryT) :
  insert_fuel (S fuel) n item = insert_body (insert_fuel fuel) n item.
Proof. reflexivity. Qed.

Lemma gas_pos (n : NodeT) : (1 <= gas n)%nat.
Proof. rewrite gas_eq. destruct (Node.isLeaf n); lia. Qed.

Lemma isSplittable_inv (n : NodeT) :
  Node.isSplittable n = true ->
  maxChildren n < Z.of_nat (List.length (children n)) /\ depth n < maxDepth n.
Proof.
  unfold Node.isSplittable. intros H. apply andb_prop in H as [H1 H2].
  apply Z.gtb_lt in H1. apply Z.ltb_lt in H2. split; assumption.
Qed.

(** After [addChild] and [split] of a leaf [n], the split node needs one
    step less than [n]. *)
Lemma gas_split_addChild (n s : NodeT) (item : BoundaryT) :
  Node.isLeaf n = true ->
  Node.isSplittable (Node.addChild n item) = true ->
  Node.split (Node.addChild n item) = Ok s ->
  S (gas s) = gas n.
Proof.
  intros Hl Hs Hsplit. apply split_inv in Hsplit as [-> _].
  apply isSplittable_inv in Hs as [_ Hd].
  rewrite gas_split; auto. apply gas_set_children.
Qed.

Section InsertBody.
Variables (rec : NodeT -> BoundaryT -> result NodeT) (n : NodeT).
Hypothesis rec_gas : forall m i m',
  (gas m < gas n)%nat -> rec m i = Ok m' -> (gas m' <= gas m)%nat.

Lemma below_step (a : NodeT) (b : BoundaryT) (a' : NodeT) :
  below n a -> rec a b = Ok a' -> below n a'.
Proof.
  unfold below. intros Ha E. pose proof (rec_gas _ _ _ Ha E). lia.
Qed.

Lemma insert_body_ext (rec2 : NodeT -> BoundaryT -> result NodeT)
  (item : BoundaryT) :
  (forall m i, (gas m < gas n)%nat -> rec m i = rec2 m i) ->
  insert_body rec n item = insert_body rec2 n item.
Proof.
  intros Hext. unfold insert_body.
  destruct (Node.isLeaf n) eqn:Hl; simpl.
  - destruct (Node.isSplittable (Node.addChild n item)) eqn:Hs; simpl; auto.
    destruct (Node.split (Node.addChild n item)) as [s|e] eqn:Hsplit;
      simpl; auto.
    pose proof (gas_split_addChild _ _ _ Hl Hs Hsplit) as Hg.
    rewrite (reduce_ext (below n) rec below_step rec2); auto.
    unfold below. lia.
  - destruct (qget _ (quadrants n)) as [c|] eqn:Hq; auto.
    destruct (Boundary.within (boundary c) item); auto.
    rewrite Hext; auto. pose proof (gas_qget _ _ _ Hl Hq). lia.
Qed.

Lemma insert_body_gas (item : BoundaryT) (n' : NodeT) :
  insert_body rec n item = Ok n' -> (gas n' <= gas n)%nat.
Proof.
  unfold insert_body.
  destruct (Node.isLeaf n) eqn:Hl; simpl.
  - destruct (Node.isSplittable (Node.addChild n item)) eqn:Hs; simpl.
    + destruct (Node.split (Node.addChild n item)) as [s|e] eqn:Hsplit;
        simpl; [|discriminate].
      pose proof (gas_split_addChild _ _ _ Hl Hs Hsplit) as Hg.
      destruct (reduce rec (children s) s) as [r|e] eqn:Hr;
        simpl; [|discriminate].
      intros [= <-]. rewrite gas_set_children.
      assert (below n r).
      { eapply (reduce_inv (below n) rec below_step); [|exact Hr].
        unfold below. lia. }
      unfold below in *. lia.
    + intros [= <-]. unfold Node.addChild. rewrite gas_set_children. lia.
  - destruct (qget _ (quadrants n)) as [c|] eqn:Hq; [|discriminate].
    pose proof (gas_qget _ _ _ Hl Hq) as Hc.
    destruct (Boundary.within (boundary c) item).
    + destruct (rec c item) as [d|e] eqn:Hrec; simpl; [|discriminate].
      intros [= <-]. apply (gas_qset n _ c d Hl Hq).
      apply (rec_gas c item d); [lia | exact Hrec].
    + intros [= <-]. unfold Node.addOverlappingChild.
      rewrite gas_set_overlappingChildren. lia.
Qed.

Lemma insert_body_fuel (item : BoundaryT) :
  (forall m i, (gas m < gas n)%nat -> rec m i <> Err FuelExhausted) ->
  insert_body rec n item <> Err FuelExhausted.
Proof.
  intros Hrec. unfold insert_body.
  destruct (Node.isLeaf n) eqn:Hl; simpl.
  - destruct (Node.isSplittable (Node.addChild n item)) eqn:Hs; simpl;
      [|discriminate].
    destruct (Node.split (Node.addChild n item)) as [s|e] eqn:Hsplit; simpl.
    + pose proof (gas_split_addChild _ _ _ Hl Hs Hsplit) as Hg.
      destruct (reduce rec (children s) s) as [r|e] eqn:Hr;
        simpl; [discriminate|].
      rewrite <- Hr.
      apply (reduce_not_err (below n) rec below_step); auto.
      unfold below. lia.
    + apply split_Err in Hsplit. subst. discriminate.
  - destruct (qget _ (quadrants n)) as [c|] eqn:Hq; [|discriminate].
    pose proof (gas_qget _ _ _ Hl Hq) as Hc.
    destruct (Boundary.within (boundary c) item); [|discriminate].
    destruct (rec c item) as [d|e] eqn:Hc'; simpl; [discriminate|].
    rewrite <- Hc'. apply Hrec. lia.
Qed.
End InsertBody.

(** With at least [gas n] steps the budget is never the reason for the
    result, and the result does not depend on the budget. *)
Lemma insert_fuel_enough (fuel : nat) :
  forall (n : NodeT) (item : BoundaryT),
  (gas n <= fuel)%nat ->
  (forall fuel2, (gas n <= fuel2)%nat ->
     insert_fuel fuel2 n item = insert_fuel fuel n item)
  /\ insert_fuel fuel n item <> Err FuelExhausted
  /\ (forall n', insert_fuel fuel n item = Ok n' -> (gas n' <= gas n)%nat).
Proof.
  induction fuel as [|fuel IH]; intros n item Hg.
  - pose proof (gas_pos n). lia.
  - assert (Hgas : forall m i m', (gas m < gas n)%nat ->
              insert_fuel fuel m i = Ok m' -> (gas m' <= gas m)%nat).
    { intros m i m' Hm. apply (IH m i). lia. }
    rewrite insert_fuel_S. split; [|split].
    + intros [|fuel2] Hg2; [pose proof (gas_pos n); lia|].
      rewrite insert_fuel_S. symmetry. apply insert_body_ext; auto.
      intros m i Hm. symmetry. apply (IH m i); lia.
    + apply insert_body_fuel; auto.
      intros m i Hm. apply (IH m i). lia.
    + intros n'. apply insert_body_gas; auto.
Qed.

Lemma insert_gas (n : NodeT) (item : BoundaryT) (n' : NodeT) :
  insert n item = Ok n' -> (gas n' <= gas n)%nat.
Proof. apply (insert_fuel_enough (gas n) n item). lia. Qed.

Lemma insert_fuel_insert (fuel : nat) (n : NodeT) (item : BoundaryT) :
  (gas n <= fuel)%nat -> insert_fuel fuel n item = insert n item.
Proof. intros H. apply (insert_fuel_enough (gas n) n item); auto. Qed.

(** [insert] never fails for lack of steps, whatever the node. *)
Lemma insert_fuel_sufficient (n : NodeT) (item : BoundaryT) :
  insert n item <> Err FuelExhausted.
Proof. apply (insert_fuel_enough (gas n) n item). lia. Qed.

(** The equation of the source: [insert] calls itself. *)
Lemma insert_eq (n : NodeT) (item : BoundaryT) :
  insert n item = insert_body insert n item.
Proof.
  unfold insert at 1. destruct (gas n) as [|g] eqn:Eg.
  - pose proof (gas_pos n). lia.
  - rewrite insert_fuel_S. apply insert_body_ext.
    + intros m i m' Hm. apply (insert_fuel_enough g m i). lia.
    + intros m i Hm. apply insert_fuel_insert. lia.
Qed.

(** Induction along the calls of [insert]. *)
Lemma insert_induction (P : NodeT -> Prop) :
  (forall n, (forall m, (gas m < gas n)%nat -> P m) -> P n) ->
  forall n, P n.
Proof.
  intros Hstep n. remember (gas n) as g eqn:Eg.
  revert n Eg. induction g as [g IH] using lt_wf_ind. intros n ->.
  apply Hstep. intros m Hm. eapply IH; eauto.
Qed.

(** ** Well-formed trees *)

Lemma wf_eq (n : NodeT) :
  wf n <->
  (0 < maxChildren n /\ 0 < maxDepth n /\ 0 <= depth n <= maxDepth n) /\
  (quadrants n = empty_quadrants \/ full (quadrants n)) /\
  quadrants_all (fun c => child_of n c /\ wf c) (quadrants n).
Proof. destruct n; reflexivity. Qed.

Lemma stored_eq (n : NodeT) :
  stored n =
  children n ++ overlappingChildren n ++ quadrants_list stored (quadrants n).
Proof. destruct n; reflexivity. Qed.

Lemma covers_eq (n : NodeT) :
  covers n <->
  Forall (fun i => Boundary.within (boundary n) i = true) (stored n) /\
  quadrants_all covers (quadrants n).
Proof. destruct n; reflexivity. Qed.

Lemma quadrants_all_qget (P : NodeT -> Prop) (q : Quadrants NodeT)
  (k : string) (c : NodeT) :
  quadrants_all P q -> qget k q = Some c -> P c.
Proof.
  intros (H1 & H2 & H3 & H4) Hq.
  pose proof (qget_Some_tag _ _ _ Hq) as Ht.
  tag_cases Ht; unfold qget in Hq; simpl in Hq; rewrite Hq in *; assumption.
Qed.

Lemma quadrants_all_qset (P : NodeT -> Prop) (q : Quadrants NodeT)
  (k : string) (d : NodeT) :
  quadrants_all P q -> P d -> quadrants_all P (qset k (Some d) q).
Proof.
  intros (H1 & H2 & H3 & H4) Hd. unfold qset.
  repeat match goal with
  | |- context [String.eqb ?a ?b] => destruct (String.eqb a b)
  end; repeat split; assumption.
Qed.

Lemma quadrants_all_impl (P R : NodeT -> Prop) (q : Quadrants NodeT) :
  (forall c, P c -> R c) -> quadrants_all P q -> quadrants_all R q.
Proof.
  intros HPR. unfold quadrants_all, slot_all.
  destruct q as [[a|] [b|] [c|] [d|]]; simpl; intuition auto.
Qed.

Lemma full_qset {A : Type} (q : Quadrants A) (k : string) (d : A) :
  full q -> full (qset k (Some d) q).
Proof.
  intros (H1 & H2 & H3 & H4). unfold qset.
  repeat match goal with
  | |- context [String.eqb ?a ?b] => destruct (String.eqb a b)
  end; repeat split; simpl; auto; discriminate.
Qed.

Lemma full_qget {A : Type} (q : Quadrants A) (k : string) :
  full q -> is_tag k -> exists c, qget k q = Some c.
Proof.
  intros (H1 & H2 & H3 & H4) Ht.
  tag_cases Ht; unfold qget; simpl.
  - destruct (top_left q); [eauto|congruence].
  - destruct (top_right q); [eauto|congruence].
  - destruct (bottom_left q); [eauto|congruence].
  - destruct (bottom_right q); [eauto|congruence].
Qed.

Lemma full_not_leaf (n : NodeT) : full (quadrants n) -> Node.isLeaf n = false.
Proof.
  intros (H1 & _). rewrite isLeaf_top_left.
  destruct (top_left (quadrants n)); congruence.
Qed.

Lemma wf_not_leaf_full (n : NodeT) :
  wf n -> Node.isLeaf n = false -> full (quadrants n).
Proof.
  intros Hwf Hl. apply wf_eq in Hwf as (_ & [Hq | Hq] & _); auto.
  rewrite isLeaf_top_left, Hq in Hl. discriminate.
Qed.

Lemma wf_leaf_empty (n : NodeT) :
  wf n -> Node.isLeaf n = true -> quadrants n = empty_quadrants.
Proof.
  intros Hwf Hl. apply wf_eq in Hwf as (_ & [Hq | Hq] & _); auto.
  apply full_not_leaf in Hq. congruence.
Qed.

Lemma quadrants_list_qset (q : Quadrants NodeT) (k : string) (c d : NodeT)
  (item : BoundaryT) :
  qget k q = Some c ->
  Permutation (stored d) (item :: stored c) ->
  Permutation (quadrants_list stored (qset k (Some d) q))
              (item :: quadrants_list stored q).
Proof.
  intros Hq Hd. pose proof (qget_Some_tag _ _ _ Hq) as Ht.
  unfold quadrants_list.
  tag_cases Ht; unfold qget in Hq; simpl in Hq; rewrite Hq; simpl;
    rewrite Hd; simpl.
  - reflexivity.
  - symmetry. apply Permutation_middle.
  - rewrite !app_assoc. rewrite <- !(app_assoc _ (stored c)).
    symmetry. apply Permutation_middle.
  - rewrite !app_assoc. symmetry. apply Permutation_middle.
Qed.

(** ** [determineQuadrant] *)

Lemma determineQuadrant_tag (n : NodeT) (item : BoundaryT) :
  is_tag (determineQuadrant n item).
Proof.
  unfold determineQuadrant, is_tag.
  destruct (Qgtb (x item) _), (Qgtb (y item) _); simpl; auto.
Qed.

(** ** What one [insert] does to a well-formed tree *)

Lemma same_frame_refl (n : NodeT) : same_frame n n.
Proof. repeat split. Qed.

Lemma same_frame_trans (a b c : NodeT) :
  same_frame a b -> same_frame b c -> same_frame a c.
Proof. unfold same_frame. intuition congruence. Qed.

Lemma wf_same_quadrants (n n' : NodeT) :
  same_frame n n' -> quadrants n' = quadrants n -> wf n -> wf n'.
Proof.
  intros (Hb & Hmc & Hmd & Hd) Hq. rewrite !wf_eq, Hq, Hmc, Hmd, Hd.
  intros (Hp & Hs & Ha). split; [exact Hp|]. split; [exact Hs|].
  eapply quadrants_all_impl; [|exact Ha].
  unfold child_of. intros c. rewrite Hmc, Hmd, Hd. tauto.
Qed.

Lemma wf_set_children (n : NodeT) (l : list BoundaryT) :
  wf n -> wf (set_children n l).
Proof. apply wf_same_quadrants; repeat split. Qed.

Lemma wf_set_overlappingChildren (n : NodeT) (l : list BoundaryT) :
  wf n -> wf (set_overlappingChildren n l).
Proof. apply wf_same_quadrants; repeat split. Qed.

Lemma wf_fresh (n : NodeT) (b : BoundaryT) :
  0 < maxChildren n -> 0 < maxDepth n -> 0 <= depth n < maxDepth n ->
  child_of n (fresh n b) /\ wf (fresh n b).
Proof.
  intros Hmc Hmd Hd. split; [repeat split|].
  apply wf_eq. simpl. repeat split; auto; lia.
Qed.

Lemma wf_split (n : NodeT) :
  wf n -> depth n < maxDepth n -> wf (set_quadrants n (split_quadrants n)).
Proof.
  intros Hwf Hd. apply wf_eq in Hwf as ((Hmc & Hmd & Hd0) & _ & _).
  apply wf_eq. simpl. split; [|split].
  - repeat split; lia.
  - right. repeat split; discriminate.
  - assert (Hf : forall b, child_of n (fresh n b) /\ wf (fresh n b))
      by (intros b; apply wf_fresh; lia).
    split; [|split; [|split]]; apply Hf.
Qed.

Lemma wf_qset (n : NodeT) (k : string) (c d : NodeT) :
  wf n -> Node.isLeaf n = false -> qget k (quadrants n) = Some c ->
  wf d -> same_frame c d ->
  wf (set_quadrants n (qset k (Some d) (quadrants n))).
Proof.
  intros Hwf Hl Hq Hd (Hb & Hmc & Hmd & Hdd).
  pose proof (wf_not_leaf_full _ Hwf Hl) as Hfull.
  apply wf_eq in Hwf as (Hp & _ & Ha).
  apply wf_eq. simpl. split; [exact Hp|split].
  - right. apply full_qset, Hfull.
  - apply quadrants_all_qset; [exact Ha|]. split; [|exact Hd].
    destruct (quadrants_all_qget _ _ _ _ Ha Hq) as [(H1 & H2 & H3) _].
    unfold child_of. rewrite Hmc, Hmd, Hdd. auto.
Qed.

Lemma stored_fresh (n : NodeT) (b : BoundaryT) : stored (fresh n b) = [].
Proof. reflexivity. Qed.

Lemma covers_forall (n : NodeT) :
  covers n -> Forall (fun i => Boundary.within (boundary n) i = true) (stored n).
Proof. intros H. apply covers_eq in H. tauto. Qed.

Lemma covers_set_children_nil (n : NodeT) :
  covers n -> covers (set_children n []).
Proof.
  rewrite !covers_eq. intros [Hf Ha]. split; [|exact Ha].
  rewrite stored_eq in *. simpl. apply Forall_app in Hf. tauto.
Qed.

Lemma covers_perm (n n' : NodeT) (item : BoundaryT) :
  boundary n' = boundary n ->
  Permutation (stored n') (item :: stored n) ->
  covers n -> Boundary.within (boundary n) item = true ->
  Forall (fun i => Boundary.within (boundary n') i = true) (stored n').
Proof.
  intros -> Hperm Hc Hin.
  eapply Permutation_Forall; [symmetry; exact Hperm|].
  constructor; [exact Hin | apply covers_forall, Hc].
Qed.

Lemma insert_post_covers (n : NodeT) (item : BoundaryT) (n' : NodeT) :
  insert_post n item n' ->
  covers n -> Boundary.within (boundary n) item = true -> covers n'.
Proof.
  intros (_ & (Hb & _) & _ & _ & Hperm & Hbelow) Hc Hin.
  apply covers_eq. split.
  - apply (covers_perm n n' item); auto.
  - apply Hbelow. apply covers_eq in Hc. apply Hc.
Qed.

Section InsertSpec.
Variable n : NodeT.
Hypothesis IH : forall m, (gas m < gas n)%nat -> wf m ->
  forall item, exists m', insert m item = Ok m' /\ insert_post m item m'.

(** The re-insertion loop that follows a split. *)
Lemma reinsert_spec (l : list BoundaryT) :
  forall acc,
  (gas acc < gas n)%nat -> wf acc -> Node.isLeaf acc = false ->
  exists r,
    reduce insert l acc = Ok r /\
    wf r /\ Node.isLeaf r = false /\ same_frame acc r /\
    children r = children acc /\
    Permutation (stored r) (l ++ stored acc) /\
    (covers_below acc -> covers_below r).
Proof.
  induction l as [|i l IHl]; intros acc Hg Hwf Hl.
  - exists acc. rewrite reduce_nil. split; [reflexivity|].
    split; [exact Hwf|]. split; [exact Hl|].
    split; [apply same_frame_refl|]. split; [reflexivity|].
    split; [reflexivity | auto].
  - rewrite reduce_cons.
    destruct (IH acc Hg Hwf i)
      as (acc' & E & Hwf' & Hfr & Hnl & _ & Hperm & Hcov).
    rewrite E. simpl. pose proof (insert_gas _ _ _ E) as Hg'.
    destruct (Hnl Hl) as [Hl' Hch'].
    destruct (IHl acc' ltac:(lia) Hwf' Hl')
      as (r & Er & Hwfr & Hlr & Hfrr & Hchr & Hpermr & Hcovr).
    exists r. split; [exact Er|]. split; [exact Hwfr|].
    split; [exact Hlr|]. split; [eapply same_frame_trans; eauto|].
    split; [congruence|]. split.
    + rewrite Hpermr, Hperm. simpl. symmetry. apply Permutation_middle.
    + intros Hc. apply Hcovr, Hcov, Hc.
Qed.

Lemma insert_spec_step (item : BoundaryT) :
  wf n -> exists n', insert n item = Ok n' /\ insert_post n item n'.
Proof.
  intros Hwf. rewrite insert_eq. unfold insert_body.
  destruct (Node.isLeaf n) eqn:Hl; simpl.
  - (* a leaf *)
    pose proof (wf_leaf_empty _ Hwf Hl) as Hq.
    assert (Hstored : stored n = children n ++ overlappingChildren n).
    { rewrite stored_eq, Hq. unfold quadrants_list. simpl.
      rewrite app_nil_r. reflexivity. }
    destruct (Node.isSplittable (Node.addChild n item)) eqn:Hs; simpl.
    + (* split and re-insert *)
      apply isSplittable_inv in Hs as Hs'. destruct Hs' as [_ Hd].
      simpl in Hd.
      pose proof Hwf as Hwf0.
      apply wf_eq in Hwf0 as ((Hmc & Hmd & Hd0) & _ & _).
      rewrite split_Ok by (simpl; lia). simpl.
      set (u := Node.addChild n item).
      set (s := set_quadrants u (split_quadrants u)).
      assert (Hgs : (gas s < gas n)%nat).
      { assert (S (gas s) = gas n); [|lia].
        apply (gas_split_addChild n s item Hl Hs).
        apply split_Ok; simpl; lia. }
      assert (Hwfs : wf s).
      { apply wf_split; [apply wf_set_children, Hwf | exact Hd]. }
      assert (Hls : Node.isLeaf s = false) by reflexivity.
      destruct (reinsert_spec (children n ++ [item]) s Hgs Hwfs Hls)
        as (r & Er & Hwfr & Hlr & Hfrr & Hchr & Hpermr & Hcovr).
      rewrite Er. simpl. exists (set_children r []).
      assert (Hss : stored s = (children n ++ [item]) ++
                                overlappingChildren n).
      { rewrite stored_eq. unfold quadrants_list. simpl.
        rewrite app_nil_r. reflexivity. }
      split; [reflexivity|]. split; [apply wf_set_children, Hwfr|].
      split; [exact Hfrr|]. split; [congruence|].
      split; [intros _; rewrite Hs; auto|]. split.
      * rewrite Hss in Hpermr.
        rewrite (stored_eq r), Hchr in Hpermr. simpl in Hpermr.
        apply Permutation_app_inv_l in Hpermr.
        rewrite (stored_eq (set_children r [])). simpl.
        rewrite Hpermr, Hstored, <- app_assoc. simpl.
        symmetry. apply Permutation_middle.
      * intros _. apply Hcovr.
        assert (Hf : forall b, covers (fresh u b)).
        { intros b. apply covers_eq. rewrite stored_fresh.
          split; [constructor|]. unfold quadrants_all. simpl. tauto. }
        unfold covers_below, quadrants_all. simpl.
        split; [|split; [|split]]; apply Hf.
    + (* room left, or the maximum depth reached *)
      exists (Node.addChild n item). split; [reflexivity|].
      assert (Hperm : Permutation (stored (Node.addChild n item))
                                  (item :: stored n)).
      { rewrite stored_eq, Hstored. simpl. rewrite Hq. simpl.
        rewrite app_nil_r, <- app_assoc. simpl.
        symmetry. apply Permutation_middle. }
      split; [apply wf_set_children, Hwf|].
      split; [unfold same_frame; simpl; auto|]. split; [congruence|].
      split; [intros _; rewrite Hs; reflexivity|].
      split; [exact Hperm|].
      intros Hc. exact Hc.
  - (* a split node *)
    pose proof (wf_not_leaf_full _ Hwf Hl) as Hfull.
    destruct (full_qget _ _ Hfull (determineQuadrant_tag n item))
      as [c Hq].
    rewrite Hq.
    destruct (Boundary.within (boundary c) item) eqn:Hin.
    + (* the item fits the quadrant *)
      pose proof (gas_qget _ _ _ Hl Hq) as Hgc.
      assert (Hwfc : wf c).
      { apply wf_eq in Hwf as (_ & _ & Ha).
        apply (quadrants_all_qget _ _ _ _ Ha Hq). }
      destruct (IH c ltac:(lia) Hwfc item) as (d & E & Hpost).
      pose proof Hpost as (Hwfd & Hfrd & _ & _ & Hpermd & _).
      rewrite E. simpl. eexists. split; [reflexivity|].
      assert (Hperm :
        Permutation
          (stored (set_quadrants n
                     (qset (determineQuadrant n item) (Some d) (quadrants n))))
          (item :: stored n)).
      { rewrite (stored_eq n), (stored_eq (set_quadrants _ _)). simpl.
        rewrite (quadrants_list_qset _ _ c d item Hq Hpermd).
        rewrite app_assoc. symmetry.
        rewrite app_assoc. apply Permutation_middle. }
      split; [eapply wf_qset; eauto|].
      split; [unfold same_frame; simpl; auto|].
      split; [intros _; split; [apply isLeaf_qset, Hl | reflexivity]|].
      split; [congruence|].
      split; [exact Hperm|].
      intros Ha. unfold covers_below. simpl.
      apply quadrants_all_qset; [exact Ha|].
      apply (insert_post_covers c item d Hpost); [|exact Hin].
      apply (quadrants_all_qget _ _ _ _ Ha Hq).
    + (* the item straddles quadrants *)
      exists (Node.addOverlappingChild n item). split; [reflexivity|].
      assert (Hperm : Permutation (stored (Node.addOverlappingChild n item))
                                  (item :: stored n)).
      { rewrite (stored_eq n), (stored_eq (Node.addOverlappingChild _ _)).
        simpl. rewrite <- app_assoc. simpl.
        symmetry. rewrite !app_assoc. apply Permutation_middle. }
      split; [apply wf_set_overlappingChildren, Hwf|].
      split; [unfold same_frame; simpl; auto|].
      split; [intros _; split; [exact Hl | reflexivity]|].
      split; [congruence|].
      split; [exact Hperm|].
      intros Hc. exact Hc.
Qed.
End InsertSpec.

Lemma insert_spec (n : NodeT) :
  wf n -> forall item, exists n', insert n item = Ok n' /\ insert_post n item n'.
Proof.
  induction n as [n IH] using insert_induction.
  intros Hwf item. apply insert_spec_step; auto.
Qed.

(** ** Geometry *)

Lemma within_spec (b i : BoundaryT) :
  Boundary.within b i = true <->
  (x b <= x i /\ x i + width i <= x b + width b /\
   y b <= y i /\ y i + height i <= y b + height b)%Q.
Proof.
  unfold Boundary.within.
  rewrite !andb_true_iff, !Qgeb_le, !Qleb_le. tauto.
Qed.

Lemma intersects_spec (a b : BoundaryT) :
  Boundary.intersects a b = true <->
  (x a < x b + width b /\ x b < x a + width a /\
   y a < y b + height b /\ y b < y a + height a)%Q.
Proof.
  unfold Boundary.intersects.
  rewrite !andb_true_iff, !Qgtb_lt, !Qltb_lt. tauto.
Qed.

(** What the pruning step of [search] relies on: a query that meets an item
    meets every boundary the item lies within. *)
Lemma within_intersects (b q i : BoundaryT) :
  Boundary.within b i = true -> Boundary.intersects q i = true ->
  Boundary.intersects b q = true.
Proof.
  rewrite within_spec, !intersects_spec.
  intros (H1 & H2 & H3 & H4) (H5 & H6 & H7 & H8).
  repeat split; lra.
Qed.

(** ** Lists *)

Lemma Permutation_filter {A : Type} (f : A -> bool) (l l' : list A) :
  Permutation l l' -> Permutation (filter f l) (filter f l').
Proof.
  induction 1 as [|a l l' _ IH|a b l|l l' l'' _ IH1 _ IH2]; simpl.
  - constructor.
  - destruct (f a); auto.
  - destruct (f a), (f b); auto. apply perm_swap.
  - etransitivity; eauto.
Qed.

Lemma filter_none {A : Type} (f : A -> bool) (l : list A) :
  Forall (fun a => f a = false) l -> filter f l = [].
Proof.
  induction 1 as [|a l Ha _ IH]; simpl; auto. rewrite Ha. exact IH.
Qed.

(** ** [create] *)

Lemma create_inv (b : BoundaryT) (omc omd : option Z) (t : NodeT) :
  create b omc omd = Ok t ->
  t = mkNode b (default 4 omc) (default 4 omd) 0 empty_quadrants [] []
  /\ 0 < default 4 omc /\ 0 < default 4 omd.
Proof.
  unfold create. intros H. apply node_inv in H. simpl in H. tauto.
Qed.

Lemma create_Ok (b : BoundaryT) (omc omd : option Z) :
  0 < default 4 omc -> 0 < default 4 omd ->
  create b omc omd
  = Ok (mkNode b (default 4 omc) (default 4 omd) 0 empty_quadrants [] []).
Proof. intros H1 H2. unfold create. apply node_Ok; lia. Qed.

Lemma create_wf (b : BoundaryT) (omc omd : option Z) (t : NodeT) :
  create b omc omd = Ok t ->
  wf t /\ Node.isLeaf t = true /\ depth t = 0 /\ boundary t = b /\
  stored t = [] /\ covers t.
Proof.
  intros H. apply create_inv in H as (-> & Hmc & Hmd).
  split; [|split; [|split; [|split; [|split]]]]; try reflexivity.
  - apply wf_eq. simpl. split; [lia|]. split; [left; reflexivity|].
    unfold quadrants_all. simpl. tauto.
  - apply covers_eq. simpl. split; [constructor|].
    unfold quadrants_all. simpl. tauto.
Qed.

(** ** [batchInsert] *)

Lemma batchInsert_nil (n : NodeT) : batchInsert n [] = Ok n.
Proof. reflexivity. Qed.

Lemma batchInsert_cons (n : NodeT) (i : BoundaryT) (items : list BoundaryT) :
  batchInsert n (i :: items) = do a <- insert n i; batchInsert a items.
Proof. unfold batchInsert. apply reduce_cons. Qed.

Lemma batchInsert_app (n : NodeT) (l1 l2 : list BoundaryT) :
  batchInsert n (l1 ++ l2) = do a <- batchInsert n l1; batchInsert a l2.
Proof. unfold batchInsert. apply reduce_app. Qed.

Lemma batchInsert_spec (items : list BoundaryT) :
  forall n, wf n ->
  exists n',
    batchInsert n items = Ok n' /\ wf n' /\ same_frame n n' /\
    (Node.isLeaf n = false -> Node.isLeaf n' = false) /\
    Permutation (stored n') (stored n ++ items) /\
    (covers_below n -> covers_below n').
Proof.
  induction items as [|i items IH]; intros n Hwf.
  - exists n. rewrite batchInsert_nil, app_nil_r.
    split; [reflexivity|]. split; [exact Hwf|].
    split; [apply same_frame_refl|]. split; [auto|].
    split; [reflexivity | auto].
  - rewrite batchInsert_cons.
    destruct (insert_spec n Hwf i)
      as (a & E & Hwfa & Hfra & Hnl & _ & Hperm & Hcov).
    rewrite E. simpl.
    destruct (IH a Hwfa) as (n' & E' & Hwf' & Hfr' & Hnl' & Hperm' & Hcov').
    exists n'. split; [exact E'|]. split; [exact Hwf'|].
    split; [eapply same_frame_trans; eauto|].
    split; [intros Hl; apply Hnl', Hnl, Hl|]. split.
    + rewrite Hperm', Hperm. simpl. apply Permutation_middle.
    + intros Hc. apply Hcov', Hcov, Hc.
Qed.

(** ** [search] *)

Lemma search_eq (n : NodeT) (item : BoundaryT) :
  search n item =
  if negb (Boundary.intersects (boundary n) item) then Ok []
  else
    let points :=
      filter (fun x => Boundary.intersects item x)
             (children n ++ overlappingChildren n) in
    if Node.isLeaf n then Ok points
    else
      do r1 <- search_slot item (top_left (quadrants n));
      do r2 <- search_slot item (top_right (quadrants n));
      do r3 <- search_slot item (bottom_left (quadrants n));
      do r4 <- search_slot item (bottom_right (quadrants n));
      Ok ((((points ++ r1) ++ r2) ++ r3) ++ r4).
Proof. destruct n; reflexivity. Qed.

(** [search] on a well-formed node whose descendants hold their items
    within their boundaries: the result is right when the query meets the
    boundary of the node, and also when the node's own boundary contains all
    the items. *)
Lemma search_spec (q : BoundaryT) (n : NodeT) :
  wf n -> covers_below n ->
  Boundary.intersects (boundary n) q = true \/
  Forall (fun i => Boundary.within (boundary n) i = true) (stored n) ->
  exists l,
    search n q = Ok l /\
    Permutation l (filter (fun i => Boundary.intersects q i) (stored n)).
Proof.
  induction n as [n IH] using NodeT_nested_ind. intros Hwf Hca Hhyp.
  rewrite search_eq.
  destruct (Boundary.intersects (boundary n) q) eqn:Hb; simpl.
  - destruct (Node.isLeaf n) eqn:Hl.
    + exists (filter (fun i => Boundary.intersects q i)
                     (children n ++ overlappingChildren n)).
      split; [reflexivity|].
      rewrite stored_eq, (wf_leaf_empty _ Hwf Hl).
      unfold quadrants_list. simpl. rewrite app_nil_r. reflexivity.
    + pose proof (wf_not_leaf_full _ Hwf Hl) as (F1 & F2 & F3 & F4).
      apply wf_eq in Hwf as (_ & _ & Ha).
      rewrite stored_eq. unfold quadrants_list.
      destruct IH as (I1 & I2 & I3 & I4).
      destruct Ha as (A1 & A2 & A3 & A4).
      destruct Hca as (C1 & C2 & C3 & C4).
      destruct (top_left (quadrants n)) as [a|]; [|congruence].
      destruct (top_right (quadrants n)) as [b|]; [|congruence].
      destruct (bottom_left (quadrants n)) as [c|]; [|congruence].
      destruct (bottom_right (quadrants n)) as [d|]; [|congruence].
      simpl in *.
      apply covers_eq in C1 as [C1 C1']. apply covers_eq in C2 as [C2 C2'].
      apply covers_eq in C3 as [C3 C3']. apply covers_eq in C4 as [C4 C4'].
      destruct (I1 (proj2 A1) C1' (or_intror C1)) as (la & -> & Pa).
      destruct (I2 (proj2 A2) C2' (or_intror C2)) as (lb & -> & Pb).
      destruct (I3 (proj2 A3) C3' (or_intror C3)) as (lc & -> & Pc).
      destruct (I4 (proj2 A4) C4' (or_intror C4)) as (ld & -> & Pd).
      simpl. eexists. split; [reflexivity|].
      rewrite Pa, Pb, Pc, Pd, !filter_app, <- !app_assoc. reflexivity.
  - destruct Hhyp as [Hhyp | Hc]; [discriminate|].
    exists []. split; [reflexivity|].
    rewrite filter_none; [constructor|].
    eapply Forall_impl; [|exact Hc]. simpl. intros i Hi.
    destruct (Boundary.intersects q i) eqn:Hq; auto.
    rewrite (within_intersects _ _ _ Hi Hq) in Hb. discriminate.
Qed.

(** A query that misses the boundary of a node is answered with the empty
    sequence. *)
Lemma search_pruned (q : BoundaryT) (n : NodeT) :
  Boundary.intersects (boundary n) q = false -> search n q = Ok [].
Proof. intros H. rewrite search_eq, H. reflexivity. Qed.

(** ** Invariants of built trees *)

Lemma clear_node_eq (n : NodeT) :
  clear_node n =
  mkNode (boundary n) (maxChildren n) (maxDepth n) (depth n)
         empty_quadrants [] [].
Proof. destruct n as [b mc md d [tl tr bl br] ch ov]. reflexivity. Qed.

Lemma clear_node_wf (n : NodeT) : wf n -> wf (clear_node n).
Proof.
  intros Hwf. apply wf_eq in Hwf as (Hp & _ & _).
  rewrite clear_node_eq. apply wf_eq. simpl.
  split; [exact Hp|]. split; [left; reflexivity|].
  unfold quadrants_all. simpl. tauto.
Qed.

Lemma built_inv (t : NodeT) (its : list BoundaryT) :
  built t its ->
  wf t /\ depth t = 0 /\ Permutation (stored t) its /\ covers_below t.
Proof.
  induction 1 as [b omc omd t Hc
                 |t its item t' _ (Hwf & Hd & Hperm & Hcov) Hi
                 |t its items t' _ (Hwf & Hd & Hperm & Hcov) Hb
                 |t its t' _ (Hwf & Hd & Hperm & Hcov) Hc].
  - apply create_wf in Hc as (Hwf & _ & Hd & _ & Hs & Hc).
    rewrite Hs. apply covers_eq in Hc. destruct Hc as [_ Hc].
    split; [exact Hwf|]. split; [exact Hd|]. split; [reflexivity | exact Hc].
  - destruct (insert_spec t Hwf item)
      as (t2 & E & Hwf2 & (Hb2 & _ & _ & Hd2) & _ & _ & Hperm2 & Hcov2).
    assert (t2 = t') by congruence. subst t2.
    split; [exact Hwf2|]. split; [congruence|]. split; [|auto].
    rewrite Hperm2, Hperm. apply Permutation_cons_append.
  - destruct (batchInsert_spec items t Hwf)
      as (t2 & E & Hwf2 & (Hb2 & _ & _ & Hd2) & _ & Hperm2 & Hcov2).
    assert (t2 = t') by congruence. subst t2.
    split; [exact Hwf2|]. split; [congruence|]. split; [|auto].
    rewrite Hperm2, Hperm. reflexivity.
  - simpl in Hc. injection Hc as <-.
    split; [apply clear_node_wf, Hwf|]. rewrite clear_node_eq.
    split; [exact Hd|]. split; [reflexivity|].
    unfold covers_below, quadrants_all. simpl. tauto.
Qed.

Lemma In_quadrants_list {A : Type} (f : NodeT -> list A) (q : Quadrants NodeT)
  (a : A) :
  In a (quadrants_list f q) ->
  exists k c, qget k q = Some c /\ In a (f c).
Proof.
  unfold quadrants_list. rewrite !in_app_iff.
  intros [H | [H | [H | H]]].
  - exists "top-left". destruct (top_left q) as [c|] eqn:E; [|contradiction].
    exists c. split; [exact E | exact H].
  - exists "top-right". destruct (top_right q) as [c|] eqn:E; [|contradiction].
    exists c. split; [exact E | exact H].
  - exists "bottom-left". destruct (bottom_left q) as [c|] eqn:E; [|contradiction].
    exists c. split; [exact E | exact H].
  - exists "bottom-right". destruct (bottom_right q) as [c|] eqn:E; [|contradiction].
    exists c. split; [exact E | exact H].
Qed.

Lemma nodes_eq (n : NodeT) :
  nodes n = n :: quadrants_list nodes (quadrants n).
Proof. destruct n; reflexivity. Qed.

Lemma quadrants_all_qget_inv (P : NodeT -> Prop) (q : Quadrants NodeT) :
  (forall k c, qget k q = Some c -> P c) -> quadrants_all P q.
Proof.
  intros H. unfold quadrants_all, slot_all.
  split; [|split; [|split]].
  - destruct (top_left q) as [c|] eqn:E; auto. apply (H "top-left"). exact E.
  - destruct (top_right q) as [c|] eqn:E; auto. apply (H "top-right"). exact E.
  - destruct (bottom_left q) as [c|] eqn:E; auto.
    apply (H "bottom-left"). exact E.
  - destruct (bottom_right q) as [c|] eqn:E; auto.
    apply (H "bottom-right"). exact E.
Qed.

(** Descendants of a well-formed node are well-formed and inherit its
    thresholds. *)
Lemma wf_nodes (n : NodeT) :
  wf n -> forall m, In m (nodes n) ->
  wf m /\ maxDepth m = maxDepth n /\ maxChildren m = maxChildren n /\
  depth n <= depth m.
Proof.
  induction n as [n IH] using NodeT_nested_ind. intros Hwf m Hm.
  rewrite nodes_eq in Hm. destruct Hm as [<- | Hm].
  - repeat split; auto; lia.
  - apply In_quadrants_list in Hm as (k & c & Hq & Hm).
    apply wf_eq in Hwf as (_ & _ & Ha).
    destruct (quadrants_all_qget _ _ _ _ Ha Hq) as [(Hd & Hmd & Hmc) Hwfc].
    destruct (quadrants_all_qget _ _ _ _ IH Hq Hwfc m Hm)
      as (Hwfm & Hmd' & Hmc' & Hd').
    repeat split; auto; try congruence; lia.
Qed.

Lemma levels_eq (n : NodeT) :
  levels n =
  let slot (o : option NodeT) : nat :=
    match o with
    | None => O
    | Some c => S (levels c)
    end in
  let q := quadrants n in
  Nat.max (Nat.max (slot (top_left q)) (slot (top_right q)))
          (Nat.max (slot (bottom_left q)) (slot (bottom_right q))).
Proof. destruct n; reflexivity. Qed.

Lemma wf_depth (n : NodeT) : wf n -> 0 <= depth n <= maxDepth n.
Proof. intros H. apply wf_eq in H. tauto. Qed.

(** The tree below a node never reaches past [maxDepth]. *)
Lemma wf_levels (n : NodeT) :
  wf n -> Z.of_nat (levels n) <= maxDepth n - depth n.
Proof.
  induction n as [n IH] using NodeT_nested_ind. intros Hwf.
  pose proof (wf_depth _ Hwf) as Hd.
  apply wf_eq in Hwf as (_ & _ & Ha).
  rewrite levels_eq. simpl.
  destruct IH as (I1 & I2 & I3 & I4).
  destruct Ha as (A1 & A2 & A3 & A4).
  unfold child_of in *.
  destruct (top_left (quadrants n)) as [a|];
  destruct (top_right (quadrants n)) as [b|];
  destruct (bottom_left (quadrants n)) as [c|];
  destruct (bottom_right (quadrants n)) as [d|]; simpl in *;
  repeat match goal with
  | I : wf ?c -> _, A : _ /\ wf ?c |- _ =>
      let H := fresh "H" in
      pose proof (I (proj2 A)) as H; clear I
  end; lia.
Qed.

(** A node at [maxDepth] has no quadrants. *)
Lemma wf_deepest_leaf (n : NodeT) :
  wf n -> depth n = maxDepth n -> Node.isLeaf n = true.
Proof.
  intros Hwf Hd. destruct (Node.isLeaf n) eqn:Hl; auto. exfalso.
  pose proof (wf_not_leaf_full _ Hwf Hl) as (F1 & _).
  apply wf_eq in Hwf as (_ & _ & (A1 & _)).
  destruct (top_left (quadrants n)) as [a|]; [|congruence].
  simpl in A1. destruct A1 as [(H1 & H2 & _) Hwfa].
  apply wf_depth in Hwfa. lia.
Qed.

(** The step budget of a well-formed node is linear in the depth that is
    left. *)
Lemma wf_gas (n : NodeT) :
  wf n -> (gas n <= 2 * Z.to_nat (maxDepth n - depth n) + 1)%nat.
Proof.
  induction n as [n IH] using NodeT_nested_ind. intros Hwf.
  pose proof (wf_depth _ Hwf) as Hd.
  rewrite gas_eq. destruct (Node.isLeaf n) eqn:Hl; [lia|].
  pose proof (wf_not_leaf_full _ Hwf Hl) as (F1 & F2 & F3 & F4).
  apply wf_eq in Hwf as (_ & _ & Ha).
  destruct IH as (I1 & I2 & I3 & I4).
  destruct Ha as (A1 & A2 & A3 & A4).
  unfold child_of in *.
  destruct (top_left (quadrants n)) as [a|]; [|congruence].
  destruct (top_right (quadrants n)) as [b|]; [|congruence].
  destruct (bottom_left (quadrants n)) as [c|]; [|congruence].
  destruct (bottom_right (quadrants n)) as [d|]; [|congruence].
  simpl in *.
  pose proof (I1 (proj2 A1)). pose proof (I2 (proj2 A2)).
  pose proof (I3 (proj2 A3)). pose proof (I4 (proj2 A4)).
  pose proof (wf_depth _ (proj2 A1)). lia.
Qed.

(** ** Further facts about the operations *)

Lemma insert_each_app (l1 l2 : list BoundaryT) :
  forall n,
  insert_each n (l1 ++ l2) = do a <- insert_each n l1; insert_each a l2.
Proof.
  induction l1 as [|i l1 IH]; intros n; simpl; auto.
  destruct (insert n i) as [a|e]; simpl; auto.
Qed.

Lemma batchInsert_insert_each (items : list BoundaryT) :
  forall n, batchInsert n items = insert_each n items.
Proof.
  induction items as [|i items IH]; intros n.
  - reflexivity.
  - rewrite batchInsert_cons. simpl.
    destruct (insert n i) as [a|e]; simpl; auto.
Qed.

(** The children that [split] makes have the half height of the parent as
    their width and its half width as their height. *)
Lemma split_children_dimensions (n s : NodeT) (k : string) (c : NodeT) :
  Node.split n = Ok s -> qget k (quadrants s) = Some c ->
  width (boundary c) = (height (boundary n) / 2)%Q /\
  height (boundary c) = (width (boundary n) / 2)%Q /\
  depth c = depth n + 1 /\ Node.isLeaf c = true /\ stored c = [].
Proof.
  intros Hs Hq. apply split_inv in Hs as [-> _].
  pose proof (qget_Some_tag _ _ _ Hq) as Ht.
  tag_cases Ht; injection Hq as <-; repeat split.
Qed.

(** A leaf below its threshold only collects the items. *)
Lemma insert_leaf_room (n : NodeT) (item : BoundaryT) :
  Node.isLeaf n = true ->
  Node.isSplittable (Node.addChild n item) = false ->
  insert n item = Ok (Node.addChild n item).
Proof.
  intros Hl Hs. rewrite insert_eq. unfold insert_body.
  rewrite Hl, Hs. reflexivity.
Qed.

Lemma insert_each_leaf_room (l : list BoundaryT) :
  forall n,
  Node.isLeaf n = true ->
  Z.of_nat (List.length (children n ++ l)) <= maxChildren n ->
  insert_each n l = Ok (set_children n (children n ++ l)).
Proof.
  induction l as [|i l IH]; intros n Hl Hlen.
  - simpl. rewrite app_nil_r. destruct n; reflexivity.
  - simpl. rewrite insert_leaf_room; auto.
    + simpl. rewrite IH; auto.
      * simpl. rewrite <- app_assoc. reflexivity.
      * simpl. rewrite <- app_assoc. exact Hlen.
    + unfold Node.isSplittable. simpl.
      rewrite length_app in *. simpl in *.
      destruct (Z.gtb_spec (Z.of_nat (List.length (children n) + 1))
                           (maxChildren n)); [lia | reflexivity].
Qed.

(** Inserting into a split node never makes it a leaf again; no assumption
    on the shape of the node is needed. *)
Lemma insert_keeps_split (n : NodeT) (item : BoundaryT) (n' : NodeT) :
  Node.isLeaf n = false -> insert n item = Ok n' -> Node.isLeaf n' = false.
Proof.
  intros Hl. rewrite insert_eq. unfold insert_body. rewrite Hl. simpl.
  destruct (qget _ (quadrants n)) as [c|]; [|discriminate].
  destruct (Boundary.within (boundary c) item).
  - destruct (insert c item) as [d|e]; simpl; [|discriminate].
    intros [= <-]. apply isLeaf_qset, Hl.
  - intros [= <-]. exact Hl.
Qed.

Lemma batchInsert_keeps_split (items : list BoundaryT) (n n' : NodeT) :
  Node.isLeaf n = false -> batchInsert n items = Ok n' ->
  Node.isLeaf n' = false.
Proof.
  unfold batchInsert.
  apply (reduce_inv (fun a => Node.isLeaf a = false) insert).
  intros a b a'. apply insert_keeps_split.
Qed.

Lemma search_total (q : BoundaryT) (n : NodeT) :
  wf n -> exists l, search n q = Ok l.
Proof.
  induction n as [n IH] using NodeT_nested_ind. intros Hwf.
  rewrite search_eq.
  destruct (negb (Boundary.intersects (boundary n) q)); [eauto|]. simpl.
  destruct (Node.isLeaf n) eqn:Hl; [eauto|].
  pose proof (wf_not_leaf_full _ Hwf Hl) as (F1 & F2 & F3 & F4).
  apply wf_eq in Hwf as (_ & _ & Ha).
  destruct IH as (I1 & I2 & I3 & I4).
  destruct Ha as (A1 & A2 & A3 & A4).
  destruct (top_left (quadrants n)) as [a|]; [|congruence].
  destruct (top_right (quadrants n)) as [b|]; [|congruence].
  destruct (bottom_left (quadrants n)) as [c|]; [|congruence].
  destruct (bottom_right (quadrants n)) as [d|]; [|congruence].
  simpl in *.
  destruct (I1 (proj2 A1)) as (la & ->).
  destruct (I2 (proj2 A2)) as (lb & ->).
  destruct (I3 (proj2 A3)) as (lc & ->).
  destruct (I4 (proj2 A4)) as (ld & ->).
  simpl. eauto.
Qed.

(** On well-formed trees the node-level [clear] of modules/node.js computes
    the same node as the tree-level [clear]. *)
Lemma Node_clear_wf (n : NodeT) :
  wf n -> Node.clear n = Ok (clear_node n).
Proof.
  induction n as [n IH] using NodeT_nested_ind. intros Hwf.
  rewrite clear_node_eq.
  destruct (Node.isLeaf n) eqn:Hl.
  - pose proof (wf_leaf_empty _ Hwf Hl) as Hq.
    destruct n as [b mc md d q ch ov]. simpl in *. subst q. reflexivity.
  - pose proof (wf_not_leaf_full _ Hwf Hl) as (F1 & F2 & F3 & F4).
    apply wf_eq in Hwf as (_ & _ & Ha).
    destruct IH as (I1 & I2 & I3 & I4).
    destruct Ha as (A1 & A2 & A3 & A4).
    destruct n as [b mc md d [[tl|] [tr|] [bl|] [br|]] ch ov];
      simpl in *; try congruence.
    unfold Node.isLeaf, qmapM. simpl.
    rewrite (I1 (proj2 A1)), (I2 (proj2 A2)), (I3 (proj2 A3)),
            (I4 (proj2 A4)).
    reflexivity.
Qed.

(** * The claims *)

Lemma scenario_built : built scenario_tree scenario_items.
Proof.
  apply (built_batchInsert scenario_root [] scenario_items scenario_tree).
  - apply (built_create (rect 0 0 200 200) (Some 4) (Some 4)). reflexivity.
  - vm_compute. reflexivity.
Qed.

Lemma small_built : built small_tree [rect 1 1 2 2].
Proof.
  apply (built_insert small_root [] (rect 1 1 2 2) small_tree).
  - apply (built_create (rect 0 0 10 10) None None). reflexivity.
  - vm_compute. reflexivity.
Qed.

Lemma stray_built : built stray_tree [rect 20 20 1 1].
Proof.
  apply (built_insert small_root [] (rect 20 20 1 1) stray_tree).
  - apply (built_create (rect 0 0 10 10) None None). reflexivity.
  - vm_compute. reflexivity.
Qed.

(** C1, as amended: for every tree built through [create], [insert] and
    [batchInsert] (and [clear]) from the items [its], and every query
    rectangle, [search] returns the empty sequence when the query does not
    intersect the root boundary; when the query intersects the root
    boundary, or when every item lies within the root boundary, it returns
    the inserted items that intersect the query under the strict rule:
    every such item, as often as it was inserted, and nothing else. *)
Theorem search_sound_complete (t : NodeT) (its : list BoundaryT)
  (q : BoundaryT) :
  built t its ->
  exists l,
    search t q = Ok l /\
    (Boundary.intersects (boundary t) q = false -> l = []) /\
    (Boundary.intersects (boundary t) q = true \/
     Forall (fun i => Boundary.within (boundary t) i = true) its ->
     Permutation l (filter (fun i => Boundary.intersects q i) its) /\
     (forall i, In i l <-> In i its /\ Boundary.intersects q i = true) /\
     (NoDup its -> NoDup l)).
Proof.
  intros Hb. destruct (built_inv _ _ Hb) as (Hwf & _ & Hperm & Hbelow).
  destruct (search_total q t Hwf) as (l & E).
  exists l. split; [exact E|]. split.
  - intros Hmiss. rewrite (search_pruned q t Hmiss) in E. congruence.
  - intros Hhyp.
    assert (Hl : Permutation l
                   (filter (fun i => Boundary.intersects q i) its)).
    { destruct (search_spec q t Hwf Hbelow) as (l' & E' & Hl').
      - destruct Hhyp as [Hhyp | Hall]; [left; exact Hhyp | right].
        eapply Permutation_Forall; [symmetry; exact Hperm | exact Hall].
      - assert (l' = l) by congruence. subst l'.
        rewrite Hl'. apply Permutation_filter, Hperm. }
    split; [exact Hl|]. split.
    + intros i. rewrite <- filter_In. split; apply Permutation_in; auto.
      symmetry. exact Hl.
    + intros Hnd. eapply Permutation_NoDup; [symmetry; exact Hl|].
      apply NoDup_filter, Hnd.
Qed.

Lemma search_sound_complete_witness :
  exists l,
    search small_tree (rect 0 0 5 5) = Ok l /\
    Permutation l (filter (fun i => Boundary.intersects (rect 0 0 5 5) i)
                          [rect 1 1 2 2]).
Proof.
  destruct (search_sound_complete small_tree [rect 1 1 2 2] (rect 0 0 5 5)
              small_built) as (l & E & _ & H).
  exists l. split; [exact E|]. apply H. left. reflexivity.
Defined.

(** C1, as stated, fails: an item outside the root boundary is stored, but
    a query that meets the item and not the root boundary finds nothing. *)
Lemma search_misses_item_outside_root :
  ~ (forall (t : NodeT) (its : list BoundaryT) (q : BoundaryT),
       built t its ->
       exists l,
         search t q = Ok l /\
         Permutation l (filter (fun i => Boundary.intersects q i) its)).
Proof.
  intros H.
  destruct (H stray_tree [rect 20 20 1 1] (rect 19 19 5 5) stray_built)
    as (l & E & Hl).
  vm_compute in E. injection E as <-.
  apply Permutation_nil in Hl. vm_compute in Hl. discriminate.
Qed.

(** C2: on a boundary that is not square the code departs from the claim.
    Splitting the node with boundary (0, 0, 100, 10) gives a top-left child
    of width 5 and height 50, and a top-right child that starts at x = 50:
    the half height is stored as the width and the half width as the
    height. *)
Theorem split_swaps_width_and_height :
  exists s tl tr,
    Structs.node (rect 0 0 100 10) None None None = Ok wide_node /\
    Node.split wide_node = Ok s /\
    top_left (quadrants s) = Some tl /\
    top_right (quadrants s) = Some tr /\
    (width (boundary tl) == 5)%Q /\ (height (boundary tl) == 50)%Q /\
    ~ (width (boundary tl) == 100 / 2)%Q /\
    ~ (height (boundary tl) == 10 / 2)%Q /\
    (x (boundary tr) == 50)%Q /\ (width (boundary tr) == 5)%Q.
Proof.
  eexists. eexists. eexists.
  split; [reflexivity|].
  split; [reflexivity|]. split; [reflexivity|]. split; [reflexivity|].
  simpl. repeat split; try reflexivity; intros H; discriminate H.
Qed.

(** C3: the worked scenario.  From [create((0,0,200,200), 4, 4)], inserting
    the nine rectangles in order and searching with (50,50,100,100) returns
    exactly (149,121,2,1), (64,120,5,7), (112,57,2,2) and (49,49,2,2), up to
    order. *)
Theorem worked_scenario :
  exists t l,
    create (rect 0 0 200 200) (Some 4) (Some 4) = Ok scenario_root /\
    insert_each scenario_root scenario_items = Ok t /\
    batchInsert scenario_root scenario_items = Ok t /\
    search t scenario_query = Ok l /\
    Permutation l [rect 149 121 2 1; rect 64 120 5 7; rect 112 57 2 2;
                   rect 49 49 2 2].
Proof.
  exists scenario_tree.
  exists [rect 49 49 2 2; rect 112 57 2 2; rect 64 120 5 7; rect 149 121 2 1].
  split; [reflexivity|]. split; [vm_compute; reflexivity|].
  split; [vm_compute; reflexivity|]. split; [vm_compute; reflexivity|].
  apply (Permutation_rev [rect 49 49 2 2; rect 112 57 2 2; rect 64 120 5 7;
                          rect 149 121 2 1]).
Qed.

(** C4: for every boundary, every [maxChildren] k > 0 and [maxDepth] > 0 and
    every sequence of k + 1 items, inserting the items one at a time into
    the empty tree gives a root with no direct items and with all four
    quadrant slots populated. *)
Theorem overflow_triggers_split (b : BoundaryT) (k md : Z)
  (items : list BoundaryT) :
  0 < k -> 0 < md -> Z.of_nat (List.length items) = k + 1 ->
  exists t0 t,
    create b (Some k) (Some md) = Ok t0 /\
    insert_each t0 items = Ok t /\
    children t = [] /\ full (quadrants t).
Proof.
  intros Hk Hmd Hlen.
  destruct (exists_last (l := items)) as (init & last & ->).
  { intros ->. simpl in Hlen. lia. }
  rewrite length_app in Hlen. simpl in Hlen.
  set (t0 := mkNode b k md 0 empty_quadrants [] []).
  assert (Hc : create b (Some k) (Some md) = Ok t0)
    by (apply create_Ok; assumption).
  destruct (create_wf _ _ _ _ Hc) as (Hwf0 & Hl0 & _).
  exists t0. rewrite insert_each_app.
  rewrite insert_each_leaf_room by (auto; simpl; lia). simpl.
  set (t1 := set_children t0 init).
  assert (Hwf1 : wf t1) by (apply wf_set_children, Hwf0).
  destruct (insert_spec t1 Hwf1 last)
    as (t & E & Hwf & _ & _ & Hleaf & _).
  rewrite E. exists t. split; [exact Hc|]. split; [reflexivity|].
  assert (Hs : Node.isSplittable (Node.addChild t1 last) = true).
  { unfold Node.isSplittable. simpl. rewrite length_app. simpl.
    apply andb_true_intro. split; [apply Z.gtb_lt | apply Z.ltb_lt]; lia. }
  rewrite Hs in Hleaf. destruct (Hleaf eq_refl) as [Hnl Hch].
  split; [exact Hch|]. apply wf_not_leaf_full; assumption.
Qed.

Lemma overflow_triggers_split_witness :
  exists t0 t,
    create (rect 0 0 200 200) (Some 2) (Some 3) = Ok t0 /\
    insert_each t0 [rect 5 6 1 2; rect 67 24 1 1; rect 149 121 2 1] = Ok t /\
    children t = [] /\ full (quadrants t).
Proof.
  apply (overflow_triggers_split (rect 0 0 200 200) 2 3
           [rect 5 6 1 2; rect 67 24 1 1; rect 149 121 2 1]).
  - lia.
  - lia.
  - reflexivity.
Defined.

(** C5: [create] returns a leaf; [split] returns a node that is not a leaf;
    and a node that is not a leaf stays so under every sequence of [insert]
    calls.  The last part holds for every node on which the calls return,
    and on every well-formed tree they do return. *)
Theorem leaf_invariant :
  (forall b, exists t, create b None None = Ok t /\ Node.isLeaf t = true) /\
  (forall b omc omd t, create b omc omd = Ok t -> Node.isLeaf t = true) /\
  (forall n s, Node.split n = Ok s -> Node.isLeaf s = false) /\
  (forall n, valid_params n ->
     exists s, Node.split n = Ok s /\ Node.isLeaf s = false) /\
  (forall n items n',
     Node.isLeaf n = false -> insert_each n items = Ok n' ->
     Node.isLeaf n' = false) /\
  (forall n items,
     wf n -> Node.isLeaf n = false ->
     exists n', insert_each n items = Ok n' /\ Node.isLeaf n' = false).
Proof.
  split; [|split; [|split; [|split; [|split]]]].
  - intros b. eexists. split; reflexivity.
  - intros b omc omd t H. apply create_wf in H. tauto.
  - intros n s H. apply split_inv in H as [-> _]. reflexivity.
  - intros n (Hmc & Hmd & Hd). eexists.
    split; [apply split_Ok; lia | reflexivity].
  - intros n items n' Hl H. rewrite <- batchInsert_insert_each in H.
    eapply batchInsert_keeps_split; eauto.
  - intros n items Hwf Hl.
    destruct (batchInsert_spec items n Hwf) as (n' & E & _ & _ & Hnl & _).
    exists n'. rewrite <- batchInsert_insert_each. auto.
Qed.

Lemma leaf_invariant_witness :
  Node.isLeaf scenario_root = true /\
  (exists s, Node.split scenario_root = Ok s /\ Node.isLeaf s = false) /\
  (exists n',
     insert_each scenario_tree [rect 1 1 1 1; rect 120 120 90 90] = Ok n' /\
     Node.isLeaf n' = false).
Proof.
  destruct leaf_invariant as (_ & Hcreate & _ & Hsplit & _ & Hins).
  split; [|split].
  - apply (Hcreate (rect 0 0 200 200) (Some 4) (Some 4)). reflexivity.
  - apply Hsplit. unfold valid_params. simpl. lia.
  - apply Hins.
    + destruct (built_inv _ _ scenario_built) as (Hwf & _). exact Hwf.
    + reflexivity.
Defined.

(** C6: [batchInsert] is the left fold of [insert]: it returns what calling
    [insert] once per item, in order, returns (the same node, hence the same
    stored items and the same shape; and the same exception when a call
    throws). *)
Theorem batchInsert_is_sequential_insert :
  (forall n items, batchInsert n items = insert_each n items) /\
  (forall n i1 i2 i3,
     batchInsert n [i1; i2; i3]
     = do a <- insert n i1; do b <- insert a i2; insert b i3) /\
  (forall n l1 l2,
     batchInsert n (l1 ++ l2) = do a <- batchInsert n l1; batchInsert a l2).
Proof.
  split; [|split].
  - intros n items. apply batchInsert_insert_each.
  - intros n i1 i2 i3. rewrite batchInsert_cons.
    destruct (insert n i1) as [a|e]; cbn [bind]; [|reflexivity].
    rewrite batchInsert_cons.
    destruct (insert a i2) as [b|e]; cbn [bind]; [|reflexivity].
    rewrite batchInsert_cons.
    destruct (insert b i3) as [c|e]; reflexivity.
  - intros n l1 l2. apply batchInsert_app.
Qed.

(** C7: [clear] is idempotent; the cleared tree is a leaf on which every
    search returns the empty sequence; [clear] keeps the boundary,
    [maxChildren], [maxDepth] and [depth] and empties both item
    sequences. *)
Theorem clear_resets (t : NodeT) :
  clear (clear (Some t)) = clear (Some t) /\
  exists c,
    clear (Some t) = Some c /\
    Node.isLeaf c = true /\
    (forall q, search c q = Ok []) /\
    boundary c = boundary t /\ maxChildren c = maxChildren t /\
    maxDepth c = maxDepth t /\ depth c = depth t /\
    children c = [] /\ overlappingChildren c = [] /\
    quadrants c = empty_quadrants.
Proof.
  split.
  - simpl. rewrite !clear_node_eq. reflexivity.
  - exists (clear_node t). split; [reflexivity|].
    rewrite clear_node_eq. split; [reflexivity|]. split.
    + intros q. rewrite search_eq. simpl.
      destruct (negb (Boundary.intersects (boundary t) q)); reflexivity.
    + repeat split.
Qed.

(** C8: [split] changes the [quadrants] field only: boundary, depth,
    thresholds and both item sequences of the result are those of the
    argument.  [split] returns whenever the thresholds of the node are
    valid. *)
Theorem split_frame (n : NodeT) :
  (forall s, Node.split n = Ok s ->
     boundary s = boundary n /\ depth s = depth n /\
     maxChildren s = maxChildren n /\ maxDepth s = maxDepth n /\
     children s = children n /\
     overlappingChildren s = overlappingChildren n) /\
  (valid_params n -> exists s, Node.split n = Ok s).
Proof.
  split.
  - intros s H. apply split_inv in H as [-> _]. repeat split.
  - intros (Hmc & Hmd & Hd). eexists. apply split_Ok; lia.
Qed.

Lemma split_frame_witness :
  exists s,
    Node.split small_tree = Ok s /\
    children s = [rect 1 1 2 2] /\ overlappingChildren s = [] /\
    boundary s = rect 0 0 10 10.
Proof.
  destruct (split_frame small_tree) as [Hframe Hex].
  destruct Hex as [s Hs].
  - unfold valid_params. simpl. lia.
  - exists s. destruct (Hframe s Hs) as (Hb & _ & _ & _ & Hc & Ho).
    rewrite Hb, Hc, Ho. split; [exact Hs|]. repeat split.
Defined.

(** C9: on every tree built through the public interface, no node lies
    deeper than [maxDepth], a node at [maxDepth] is a leaf that is never
    split, the tree has at most [maxDepth] levels below the root, and every
    operation returns: [insert] within 2 * maxDepth + 1 nested calls. *)
Theorem operations_terminate (t : NodeT) (its : list BoundaryT) :
  built t its ->
  (forall m, In m (nodes t) ->
     0 <= depth m <= maxDepth t /\ maxDepth m = maxDepth t /\
     (depth m = maxDepth t ->
      Node.isLeaf m = true /\
      forall item, Node.isSplittable (Node.addChild m item) = false)) /\
  Z.of_nat (levels t) <= maxDepth t /\
  (forall item, exists t',
     insert t item = Ok t' /\
     forall fuel, (2 * Z.to_nat (maxDepth t) + 1 <= fuel)%nat ->
                  insert_fuel fuel t item = Ok t') /\
  (forall items, exists t', batchInsert t items = Ok t') /\
  (forall q, exists l, search t q = Ok l) /\
  (exists t', clear (Some t) = Some t').
Proof.
  intros Hb. destruct (built_inv _ _ Hb) as (Hwf & Hd & _).
  split; [|split; [|split; [|split; [|split]]]].
  - intros m Hm. destruct (wf_nodes t Hwf m Hm) as (Hwfm & Hmd & _ & _).
    pose proof (wf_depth _ Hwfm) as Hdm. rewrite Hmd in Hdm.
    split; [exact Hdm|]. split; [exact Hmd|]. intros Hdeep. split.
    + apply wf_deepest_leaf; [exact Hwfm | congruence].
    + intros item. unfold Node.isSplittable. simpl.
      destruct (Z.ltb_spec (depth m) (maxDepth m)); [lia|].
      apply andb_false_r.
  - pose proof (wf_levels t Hwf). lia.
  - intros item. destruct (insert_spec t Hwf item) as (t' & E & _).
    exists t'. split; [exact E|]. intros fuel Hfuel.
    rewrite insert_fuel_insert; [exact E|].
    pose proof (wf_gas t Hwf) as Hg. rewrite Hd, Z.sub_0_r in Hg. lia.
  - intros items. destruct (batchInsert_spec items t Hwf) as (t' & E & _).
    eauto.
  - intros q. apply search_total, Hwf.
  - eexists. reflexivity.
Qed.

Lemma operations_terminate_witness :
  Z.of_nat (levels scenario_tree) <= maxDepth scenario_tree /\
  (exists t', insert scenario_tree (rect 1 1 1 1) = Ok t') /\
  (exists l, search scenario_tree scenario_query = Ok l).
Proof.
  destruct (operations_terminate scenario_tree scenario_items scenario_built)
    as (_ & Hlev & Hins & _ & Hsearch & _).
  split; [exact Hlev|]. split.
  - destruct (Hins (rect 1 1 1 1)) as (t' & E & _). exists t'. exact E.
  - apply Hsearch.
Defined.

(** C10: [determineQuadrant] always returns one of the four tags, never the
    empty string; so on every node that is not a leaf in a tree built
    through the public interface, the quadrant looked up by [insert] is
    present, and [insert] never reads a property of an absent quadrant. *)
Theorem determineQuadrant_selects_present_quadrant :
  (forall n item,
     is_tag (determineQuadrant n item) /\ determineQuadrant n item <> "") /\
  (forall t its, built t its ->
     forall m, In m (nodes t) -> Node.isLeaf m = false ->
     forall item, exists c,
       qget (determineQuadrant m item) (quadrants m) = Some c) /\
  (forall t its item, built t its -> insert t item <> Err TypeError).
Proof.
  split; [|split].
  - intros n item. pose proof (determineQuadrant_tag n item) as Ht.
    split; [exact Ht|]. intros E. rewrite E in Ht.
    destruct Ht as [H | [H | [H | H]]]; discriminate H.
  - intros t its Hb m Hm Hl item.
    destruct (built_inv _ _ Hb) as (Hwf & _).
    destruct (wf_nodes t Hwf m Hm) as (Hwfm & _).
    apply full_qget; [|apply determineQuadrant_tag].
    apply wf_not_leaf_full; assumption.
  - intros t its item Hb. destruct (built_inv _ _ Hb) as (Hwf & _).
    destruct (insert_spec t Hwf item) as (t' & E & _).
    rewrite E. discriminate.
Qed.

Lemma determineQuadrant_selects_present_quadrant_witness :
  exists c,
    qget (determineQuadrant scenario_tree (rect 150 20 1 1))
         (quadrants scenario_tree) = Some c.
Proof.
  destruct determineQuadrant_selects_present_quadrant as (_ & Hq & _).
  apply (Hq scenario_tree scenario_items scenario_built).
  - left. reflexivity.
  - reflexivity.
Defined.

(** * Further properties of the code *)

(** ** modules/boundary.js *)

Lemma intersects_sym (a b : BoundaryT) :
  Boundary.intersects a b = Boundary.intersects b a.
Proof.
  apply eq_true_iff_eq. rewrite !intersects_spec. tauto.
Qed.

(** X1: [intersects] does not depend on the order of its arguments, and
    neither does the pruning test of [search], which passes the node boundary
    first, nor its item test, which passes the query first. *)
Theorem intersects_symmetric (a b : BoundaryT) :
  Boundary.intersects a b = Boundary.intersects b a.
Proof.
  unfold Boundary.intersects, Qgtb.
  destruct (Qltb (x a) (x b + width b)), (Qltb (x b) (x a + width a)),
           (Qltb (y a) (y b + height b)), (Qltb (y b) (y a + height a));
    reflexivity.
Qed.


(** X3: [within] is reflexive and transitive. *)
Theorem within_preorder :
  (forall b, Boundary.within b b = true) /\
  (forall a b c,
     Boundary.within a b = true -> Boundary.within b c = true ->
     Boundary.within a c = true).
Proof.
  split.
  - intros b. apply within_spec. repeat split; lra.
  - intros a b c. rewrite !within_spec.
    intros (H1 & H2 & H3 & H4) (H5 & H6 & H7 & H8). repeat split; lra.
Qed.

Lemma within_preorder_witness :
  Boundary.within (rect 0 0 200 200) (rect 1 1 2 2) = true.
Proof.
  apply (proj2 within_preorder (rect 0 0 200 200) (rect 0 0 10 10)
           (rect 1 1 2 2)); reflexivity.
Defined.



(** ** modules/node.js *)

Lemma Node_clear_Err (n : NodeT) :
  forall e, Node.clear n = Err e -> e = TypeError.
Proof.
  induction n as [n IH] using NodeT_nested_ind. intros e.
  destruct n as [b mc md d [tl tr bl br] ch ov].
  destruct IH as (I1 & I2 & I3 & I4). simpl in I1, I2, I3, I4.
  simpl. unfold Node.isLeaf, qmapM. simpl.
  destruct tl as [a|]; simpl; [|discriminate].
  destruct (Node.clear a) as [a'|e1] eqn:E1; simpl;
    [|intros [= <-]; exact (I1 _ E1)].
  destruct tr as [c|]; simpl; [|congruence].
  destruct (Node.clear c) as [c'|e2] eqn:E2; simpl;
    [|intros [= <-]; exact (I2 _ E2)].
  destruct bl as [f|]; simpl; [|congruence].
  destruct (Node.clear f) as [f'|e3] eqn:E3; simpl;
    [|intros [= <-]; exact (I3 _ E3)].
  destruct br as [g|]; simpl; [|congruence].
  destruct (Node.clear g) as [g'|e4] eqn:E4; simpl;
    [|intros [= <-]; exact (I4 _ E4)].
  discriminate.
Qed.

(** X5: the node-level [clear] returns what the tree-level [clear] returns
    on every well-formed tree; unlike the tree-level [clear] it throws, and
    only ever a TypeError, on a node that has a top-left quadrant and lacks
    another one. *)
Theorem Node_clear_agrees_or_throws :
  (forall n, wf n -> exists c, Node.clear n = Ok c /\ clear (Some n) = Some c) /\
  (forall n, Node.isLeaf n = false -> ~ full (quadrants n) ->
             Node.clear n = Err TypeError) /\
  (forall n e, Node.clear n = Err e -> e = TypeError).
Proof.
  split; [|split].
  - intros n Hwf. exists (clear_node n). split; [apply Node_clear_wf, Hwf|].
    reflexivity.
  - intros n Hl Hnf.
    destruct (Node.clear n) as [c|e] eqn:E.
    + exfalso. apply Hnf.
      destruct n as [b mc md d [tl tr bl br] ch ov].
      unfold Node.isLeaf in Hl. simpl in *.
      unfold Node.isLeaf, qmapM in E. simpl in E.
      destruct tl as [a|]; [|discriminate].
      simpl in E. destruct (Node.clear a); simpl in E; [|discriminate].
      destruct tr as [c1|]; [|discriminate].
      simpl in E. destruct (Node.clear c1); simpl in E; [|discriminate].
      destruct bl as [c2|]; [|discriminate].
      simpl in E. destruct (Node.clear c2); simpl in E; [|discriminate].
      destruct br as [c3|]; [|discriminate].
      repeat split; discriminate.
    + apply Node_clear_Err in E. congruence.
  - apply Node_clear_Err.
Qed.

Lemma Node_clear_agrees_or_throws_witness :
  (exists c, Node.clear scenario_tree = Ok c /\
             clear (Some scenario_tree) = Some c) /\
  Node.clear
    (set_quadrants small_root
       (mkQuadrants (Some small_root) None None None)) = Err TypeError.
Proof.
  destruct Node_clear_agrees_or_throws as (H1 & H2 & _). split.
  - apply H1. destruct (built_inv _ _ scenario_built) as (Hwf & _).
    exact Hwf.
  - apply H2.
    + reflexivity.
    + intros (_ & H & _). apply H. reflexivity.
Defined.

(** ** modules/quadtree.js: [insert] *)

(** X6: [insert] terminates on every node, well-formed or not: its nested
    calls never exceed one per level of the node plus two per level that
    [maxDepth] still allows below a leaf, and with that many or more the
    result is the same. *)
Theorem insert_terminates_on_every_node (n : NodeT) (item : BoundaryT) :
  insert n item <> Err FuelExhausted /\
  (forall fuel, (gas n <= fuel)%nat ->
     insert_fuel fuel n item = insert n item) /\
  (forall n', insert n item = Ok n' -> (gas n' <= gas n)%nat).
Proof.
  split; [|split].
  - apply insert_fuel_sufficient.
  - intros fuel. apply insert_fuel_insert.
  - intros n'. apply insert_gas.
Qed.

Lemma insert_terminates_on_every_node_witness :
  insert_fuel 100 scenario_tree (rect 1 1 1 1)
  = insert scenario_tree (rect 1 1 1 1).
Proof.
  apply (insert_terminates_on_every_node scenario_tree (rect 1 1 1 1)).
  apply Nat.leb_le. reflexivity.
Defined.

(** X7: on a well-formed tree [insert] returns a well-formed tree that holds
    the items it held before and the new item once more, and whose boundary,
    thresholds and depth are unchanged. *)
Theorem insert_stores_item_once (n : NodeT) (item : BoundaryT) :
  wf n ->
  exists n',
    insert n item = Ok n' /\ wf n' /\
    Permutation (stored n') (item :: stored n) /\
    boundary n' = boundary n /\ maxChildren n' = maxChildren n /\
    maxDepth n' = maxDepth n /\ depth n' = depth n.
Proof.
  intros Hwf.
  destruct (insert_spec n Hwf item)
    as (n' & E & Hwf' & (Hb & Hmc & Hmd & Hd) & _ & _ & Hperm & _).
  exists n'. repeat split; assumption.
Qed.

Lemma insert_stores_item_once_witness :
  exists n',
    insert scenario_tree (rect 1 1 1 1) = Ok n' /\ wf n' /\
    Permutation (stored n') (rect 1 1 1 1 :: stored scenario_tree) /\
    boundary n' = boundary scenario_tree /\
    maxChildren n' = maxChildren scenario_tree /\
    maxDepth n' = maxDepth scenario_tree /\ depth n' = depth scenario_tree.
Proof.
  apply (insert_stores_item_once scenario_tree (rect 1 1 1 1)).
  destruct (built_inv _ _ scenario_built) as (Hwf & _). exact Hwf.
Defined.

(** X8: on a node that is not a leaf, [insert] leaves the direct items and
    every quadrant other than the selected one as they are, and either
    replaces the selected quadrant or appends the item to the overlapping
    items. *)
Theorem insert_keeps_siblings (n : NodeT) (item : BoundaryT) (n' : NodeT) :
  Node.isLeaf n = false -> insert n item = Ok n' ->
  children n' = children n /\
  (forall k, k <> determineQuadrant n item ->
             qget k (quadrants n') = qget k (quadrants n)) /\
  ((overlappingChildren n' = overlappingChildren n /\
    exists c d,
      qget (determineQuadrant n item) (quadrants n) = Some c /\
      Boundary.within (boundary c) item = true /\
      insert c item = Ok d /\
      qget (determineQuadrant n item) (quadrants n') = Some d) \/
   (overlappingChildren n' = overlappingChildren n ++ [item] /\
    quadrants n' = quadrants n)).
Proof.
  intros Hl. rewrite insert_eq. unfold insert_body. rewrite Hl. simpl.
  pose proof (determineQuadrant_tag n item) as Ht.
  destruct (qget _ (quadrants n)) as [c|] eqn:Hq; [|discriminate].
  destruct (Boundary.within (boundary c) item) eqn:Hin.
  - destruct (insert c item) as [d|e] eqn:E; simpl; [|discriminate].
    intros [= <-]. simpl. split; [reflexivity|]. split.
    + intros k Hk. unfold qget, qset.
      destruct Ht as [H | [H | [H | H]]]; rewrite H in *; simpl;
        destruct (String.eqb_spec k "top-left");
        destruct (String.eqb_spec k "top-right");
        destruct (String.eqb_spec k "bottom-left");
        destruct (String.eqb_spec k "bottom-right");
        subst; simpl; congruence.
    + left. split; [reflexivity|]. exists c, d.
      repeat split; auto. apply qget_qset_same, Ht.
  - intros [= <-]. simpl. split; [reflexivity|]. split; [reflexivity|].
    right. split; reflexivity.
Qed.

Lemma insert_keeps_siblings_witness :
  exists n',
    insert scenario_tree (rect 150 20 1 1) = Ok n' /\
    qget "top-left" (quadrants n') = qget "top-left" (quadrants scenario_tree).
Proof.
  destruct (insert scenario_tree (rect 150 20 1 1)) as [n'|e] eqn:E.
  - exists n'. split; [reflexivity|].
    destruct (insert_keeps_siblings scenario_tree (rect 150 20 1 1) n'
                eq_refl E) as (_ & H & _).
    apply H. vm_compute. intros H0. discriminate H0.
  - vm_compute in E. discriminate E.
Defined.

(** X9: while the number of items does not exceed [maxChildren], the tree
    stays a single leaf whose direct items are the inserted items in the
    order of insertion. *)
Theorem below_threshold_keeps_order (b : BoundaryT) (k md : Z)
  (items : list BoundaryT) :
  0 < k -> 0 < md -> Z.of_nat (List.length items) <= k ->
  exists t0 t,
    create b (Some k) (Some md) = Ok t0 /\
    insert_each t0 items = Ok t /\
    Node.isLeaf t = true /\ children t = items /\
    overlappingChildren t = [].
Proof.
  intros Hk Hmd Hlen.
  set (t0 := mkNode b k md 0 empty_quadrants [] []).
  exists t0, (set_children t0 items).
  split; [apply create_Ok; assumption|].
  split; [|repeat split].
  apply (insert_each_leaf_room items t0); [reflexivity | exact Hlen].
Qed.

Lemma below_threshold_keeps_order_witness :
  exists t0 t,
    create (rect 0 0 200 200) (Some 4) (Some 4) = Ok t0 /\
    insert_each t0 [rect 5 6 1 2; rect 67 24 1 1] = Ok t /\
    Node.isLeaf t = true /\ children t = [rect 5 6 1 2; rect 67 24 1 1] /\
    overlappingChildren t = [].
Proof.
  apply (below_threshold_keeps_order (rect 0 0 200 200) 4 4
           [rect 5 6 1 2; rect 67 24 1 1]); simpl; lia.
Defined.

(** X10: a leaf whose depth has reached [maxDepth] is never split: whatever
    the number of items, each insert only appends to its direct items. *)
Theorem deepest_leaf_only_grows (n : NodeT) (items : list BoundaryT) :
  Node.isLeaf n = true -> maxDepth n <= depth n ->
  insert_each n items = Ok (set_children n (children n ++ items)).
Proof.
  revert n. induction items as [|i items IH]; intros n Hl Hd.
  - simpl. rewrite app_nil_r. destruct n; reflexivity.
  - simpl. rewrite insert_leaf_room; auto.
    + simpl. rewrite IH; auto. simpl. rewrite <- app_assoc. reflexivity.
    + unfold Node.isSplittable. simpl.
      destruct (Z.ltb_spec (depth n) (maxDepth n)); [lia|].
      apply andb_false_r.
Qed.

Lemma deepest_leaf_only_grows_witness :
  insert_each (mkNode (rect 0 0 8 8) 1 2 2 empty_quadrants [] [])
              [rect 1 1 1 1; rect 2 2 1 1; rect 3 3 1 1]
  = Ok (mkNode (rect 0 0 8 8) 1 2 2 empty_quadrants
               [rect 1 1 1 1; rect 2 2 1 1; rect 3 3 1 1] []).
Proof.
  apply (deepest_leaf_only_grows
           (mkNode (rect 0 0 8 8) 1 2 2 empty_quadrants [] [])
           [rect 1 1 1 1; rect 2 2 1 1; rect 3 3 1 1]).
  - reflexivity.
  - simpl. lia.
Defined.

(** ** modules/quadtree.js: [search] and [clear] *)

(** X11: whatever the node, every item that [search] returns is held in
    the tree and intersects the query. *)
Theorem search_returns_only_stored_hits (q : BoundaryT) (n : NodeT) :
  forall l, search n q = Ok l ->
  forall i, In i l -> In i (stored n) /\ Boundary.intersects q i = true.
Proof.
  induction n as [n IH] using NodeT_nested_ind. intros l.
  rewrite search_eq, stored_eq.
  destruct (negb (Boundary.intersects (boundary n) q)).
  { intros [= <-] i []. }
  simpl.
  assert (Hpts : forall i,
            In i (filter (fun i => Boundary.intersects q i)
                         (children n ++ overlappingChildren n)) ->
            (In i (children n) \/ In i (overlappingChildren n)) /\
            Boundary.intersects q i = true).
  { intros i Hi. apply filter_In in Hi as [Hi Hq]. split; [|exact Hq].
    apply in_app_or. exact Hi. }
  destruct (Node.isLeaf n).
  { intros [= <-] i Hi. destruct (Hpts i Hi) as [H1 H2].
    rewrite !in_app_iff. tauto. }
  unfold quadrants_list. destruct IH as (I1 & I2 & I3 & I4).
  destruct (top_left (quadrants n)) as [a|]; simpl; [|discriminate].
  destruct (search a q) as [la|] eqn:Ea; simpl; [|discriminate].
  destruct (top_right (quadrants n)) as [b|]; simpl; [|discriminate].
  destruct (search b q) as [lb|] eqn:Eb; simpl; [|discriminate].
  destruct (bottom_left (quadrants n)) as [c|]; simpl; [|discriminate].
  destruct (search c q) as [lc|] eqn:Ec; simpl; [|discriminate].
  destruct (bottom_right (quadrants n)) as [d|]; simpl; [|discriminate].
  destruct (search d q) as [ld|] eqn:Ed; simpl; [|discriminate].
  simpl in I1, I2, I3, I4.
  intros [= <-] i Hi. rewrite !in_app_iff in Hi. rewrite !in_app_iff.
  destruct Hi as [[[[Hi | Hi] | Hi] | Hi] | Hi].
  - destruct (Hpts i Hi) as [H1 H2]. tauto.
  - destruct (I1 la Ea i Hi). tauto.
  - destruct (I2 lb Eb i Hi). tauto.
  - destruct (I3 lc Ec i Hi). tauto.
  - destruct (I4 ld Ed i Hi). tauto.
Qed.

Lemma search_returns_only_stored_hits_witness :
  In (rect 1 1 2 2) (stored small_tree) /\
  Boundary.intersects (rect 0 0 5 5) (rect 1 1 2 2) = true.
Proof.
  apply (search_returns_only_stored_hits (rect 0 0 5 5) small_tree
           [rect 1 1 2 2]).
  - reflexivity.
  - left. reflexivity.
Defined.

Lemma search_exact (q : BoundaryT) (n : NodeT) :
  wf n -> covers_below n ->
  Boundary.intersects (boundary n) q = true \/
  Forall (fun i => Boundary.within (boundary n) i = true) (stored n) ->
  search n q = Ok (filter (fun i => Boundary.intersects q i) (stored n)).
Proof.
  induction n as [n IH] using NodeT_nested_ind. intros Hwf Hca Hhyp.
  rewrite search_eq.
  destruct (Boundary.intersects (boundary n) q) eqn:Hb; simpl.
  - destruct (Node.isLeaf n) eqn:Hl.
    + rewrite stored_eq, (wf_leaf_empty _ Hwf Hl).
      unfold quadrants_list. simpl. rewrite app_nil_r. reflexivity.
    + pose proof (wf_not_leaf_full _ Hwf Hl) as (F1 & F2 & F3 & F4).
      apply wf_eq in Hwf as (_ & _ & Ha).
      rewrite stored_eq. unfold quadrants_list.
      destruct IH as (I1 & I2 & I3 & I4).
      destruct Ha as (A1 & A2 & A3 & A4).
      destruct Hca as (C1 & C2 & C3 & C4).
      destruct (top_left (quadrants n)) as [a|]; [|congruence].
      destruct (top_right (quadrants n)) as [b|]; [|congruence].
      destruct (bottom_left (quadrants n)) as [c|]; [|congruence].
      destruct (bottom_right (quadrants n)) as [d|]; [|congruence].
      simpl in *.
      apply covers_eq in C1 as [C1 C1']. apply covers_eq in C2 as [C2 C2'].
      apply covers_eq in C3 as [C3 C3']. apply covers_eq in C4 as [C4 C4'].
      rewrite (I1 (proj2 A1) C1' (or_intror C1)).
      rewrite (I2 (proj2 A2) C2' (or_intror C2)).
      rewrite (I3 (proj2 A3) C3' (or_intror C3)).
      rewrite (I4 (proj2 A4) C4' (or_intror C4)).
      simpl. rewrite !filter_app, <- !app_assoc. reflexivity.
  - destruct Hhyp as [Hhyp | Hc]; [discriminate|].
    rewrite filter_none; [reflexivity|].
    eapply Forall_impl; [|exact Hc]. simpl. intros i Hi.
    destruct (Boundary.intersects q i) eqn:Hq; auto.
    rewrite (within_intersects _ _ _ Hi Hq) in Hb. discriminate.
Qed.

(** X12: the order of the result is fixed by the tree: when the query
    intersects the root boundary, or all items lie within it, [search]
    returns the intersecting items in pre-order: the direct items of a node,
    then its overlapping items, then the results of the top-left, top-right,
    bottom-left and bottom-right quadrants. *)
Theorem search_returns_preorder (t : NodeT) (its : list BoundaryT)
  (q : BoundaryT) :
  built t its ->
  Boundary.intersects (boundary t) q = true \/
  Forall (fun i => Boundary.within (boundary t) i = true) its ->
  search t q = Ok (filter (fun i => Boundary.intersects q i) (stored t)).
Proof.
  intros Hb Hhyp. destruct (built_inv _ _ Hb) as (Hwf & _ & Hperm & Hbelow).
  apply search_exact; auto.
  destruct Hhyp as [Hhyp | Hall]; [left; exact Hhyp | right].
  eapply Permutation_Forall; [symmetry; exact Hperm | exact Hall].
Qed.

Lemma search_returns_preorder_witness :
  search scenario_tree scenario_query
  = Ok (filter (fun i => Boundary.intersects scenario_query i)
               (stored scenario_tree)).
Proof.
  apply (search_returns_preorder scenario_tree scenario_items scenario_query).
  - exact scenario_built.
  - left. reflexivity.
Defined.

(** A query that lies within another one meets only items that the other
    one meets, and meets the root boundary only if the other one does. *)
Lemma intersects_within_query (q q' i : BoundaryT) :
  Boundary.within q' q = true -> Boundary.intersects q i = true ->
  Boundary.intersects q' i = true.
Proof.
  rewrite within_spec, !intersects_spec.
  intros (H1 & H2 & H3 & H4) (H5 & H6 & H7 & H8). repeat split; lra.
Qed.

Lemma search_found (t : NodeT) (its : list BoundaryT) (q : BoundaryT)
  (i : BoundaryT) :
  built t its -> Boundary.intersects (boundary t) q = true ->
  In i its -> Boundary.intersects q i = true ->
  exists l, search t q = Ok l /\ In i l.
Proof.
  intros Hb Hroot Hi Hq.
  destruct (built_inv _ _ Hb) as (Hwf & _ & Hperm & Hbelow).
  eexists. split; [apply search_exact; auto|].
  apply filter_In. split; [|exact Hq].
  eapply Permutation_in; [symmetry; exact Hperm | exact Hi].
Qed.

(** X13: enlarging the query never loses a result: if [q] lies within [q'],
    every item that [search] returns for [q] is returned for [q']. *)
Theorem search_monotone (t : NodeT) (its : list BoundaryT)
  (q q' : BoundaryT) :
  built t its -> Boundary.within q' q = true ->
  exists l l',
    search t q = Ok l /\ search t q' = Ok l' /\ incl l l'.
Proof.
  intros Hb Hin.
  destruct (built_inv _ _ Hb) as (Hwf & _ & Hperm & Hbelow).
  destruct (search_total q t Hwf) as (l & E).
  destruct (search_total q' t Hwf) as (l' & E').
  exists l, l'. split; [exact E|]. split; [exact E'|].
  destruct (Boundary.intersects (boundary t) q) eqn:Hroot.
  - assert (Hroot' : Boundary.intersects (boundary t) q' = true).
    { rewrite intersects_sym.
      apply (intersects_within_query q q'); [exact Hin|].
      rewrite intersects_sym. exact Hroot. }
    intros i Hi.
    rewrite (search_exact q t Hwf Hbelow (or_introl Hroot)) in E.
    injection E as <-. apply filter_In in Hi as [Hs Hq].
    destruct (search_found t its q' i Hb Hroot') as (l2 & E2 & Hi2).
    + eapply Permutation_in; [exact Hperm | exact Hs].
    + apply (intersects_within_query q q'); assumption.
    + congruence.
  - rewrite (search_pruned q t Hroot) in E. injection E as <-.
    intros i [].
Qed.

Lemma search_monotone_witness :
  exists l l',
    search scenario_tree (rect 60 60 20 20) = Ok l /\
    search scenario_tree scenario_query = Ok l' /\ incl l l'.
Proof.
  apply (search_monotone scenario_tree scenario_items).
  - exact scenario_built.
  - reflexivity.
Defined.

(** X14: the answer to a query does not depend on the order of insertion:
    two trees built over the same boundary from the same items, inserted in
    any two orders, return the same items up to order whenever the query
    intersects the root boundary (and both return nothing when it does
    not). *)
Theorem search_independent_of_insertion_order (t1 t2 : NodeT)
  (its1 its2 : list BoundaryT) (q : BoundaryT) :
  built t1 its1 -> built t2 its2 ->
  boundary t1 = boundary t2 -> Permutation its1 its2 ->
  exists l1 l2,
    search t1 q = Ok l1 /\ search t2 q = Ok l2 /\ Permutation l1 l2.
Proof.
  intros Hb1 Hb2 Hbd Hperm.
  destruct (built_inv _ _ Hb1) as (Hwf1 & _ & Hp1 & Hbelow1).
  destruct (built_inv _ _ Hb2) as (Hwf2 & _ & Hp2 & Hbelow2).
  destruct (Boundary.intersects (boundary t1) q) eqn:Hroot.
  - exists (filter (fun i => Boundary.intersects q i) (stored t1)).
    exists (filter (fun i => Boundary.intersects q i) (stored t2)).
    split; [apply search_exact; auto|].
    split; [apply search_exact; auto; left; congruence|].
    apply Permutation_filter. rewrite Hp1, Hp2. exact Hperm.
  - exists [], []. split; [apply search_pruned; exact Hroot|].
    split; [apply search_pruned; congruence | constructor].
Qed.

Lemma search_independent_of_insertion_order_witness :
  exists l1 l2,
    search (pair_tree (rect 1 1 2 2) (rect 4 4 3 3)) (rect 0 0 5 5) = Ok l1 /\
    search (pair_tree (rect 4 4 3 3) (rect 1 1 2 2)) (rect 0 0 5 5) = Ok l2 /\
    Permutation l1 l2.
Proof.
  apply (search_independent_of_insertion_order
           (pair_tree (rect 1 1 2 2) (rect 4 4 3 3))
           (pair_tree (rect 4 4 3 3) (rect 1 1 2 2))
           [rect 1 1 2 2; rect 4 4 3 3] [rect 4 4 3 3; rect 1 1 2 2]).
  - apply (built_batchInsert small_root [] [rect 1 1 2 2; rect 4 4 3 3]).
    + apply (built_create (rect 0 0 10 10) None None). reflexivity.
    + reflexivity.
  - apply (built_batchInsert small_root [] [rect 4 4 3 3; rect 1 1 2 2]).
    + apply (built_create (rect 0 0 10 10) None None). reflexivity.
    + reflexivity.
  - reflexivity.
  - apply perm_swap.
Defined.

(** X15: [insert] adds the item to the answers it belongs to and changes no
    other answer: for a query that intersects the root boundary, the result
    of [search] after the insert is the result before it, together with the
    item when the item intersects the query. *)
Theorem insert_extends_answers (t : NodeT) (its : list BoundaryT)
  (item q : BoundaryT) :
  built t its ->
  Boundary.intersects (boundary t) q = true ->
  exists t' l l',
    insert t item = Ok t' /\ search t q = Ok l /\ search t' q = Ok l' /\
    Permutation l' (if Boundary.intersects q item then item :: l else l).
Proof.
  intros Hb Hroot.
  destruct (built_inv _ _ Hb) as (Hwf & _ & _ & Hbelow).
  destruct (insert_spec t Hwf item)
    as (t' & E & Hwf' & (Hbd & _) & _ & _ & Hperm & Hbelow').
  exists t'.
  exists (filter (fun i => Boundary.intersects q i) (stored t)).
  exists (filter (fun i => Boundary.intersects q i) (stored t')).
  split; [exact E|].
  split; [apply search_exact; auto|].
  split; [apply search_exact; auto; left; congruence|].
  rewrite (Permutation_filter _ _ _ Hperm). simpl.
  destruct (Boundary.intersects q item); reflexivity.
Qed.

Lemma insert_extends_answers_witness :
  exists t' l l',
    insert scenario_tree (rect 60 60 1 1) = Ok t' /\
    search scenario_tree scenario_query = Ok l /\
    search t' scenario_query = Ok l' /\
    Permutation l' (if Boundary.intersects scenario_query (rect 60 60 1 1)
                    then rect 60 60 1 1 :: l else l).
Proof.
  apply (insert_extends_answers scenario_tree scenario_items).
  - exact scenario_built.
  - reflexivity.
Defined.

(** X16: [clear] undoes every insertion: on a tree built through the public
    interface it returns the tree that [create] returns for the same
    boundary and thresholds. *)
Theorem clear_returns_created_tree (t : NodeT) (its : list BoundaryT) :
  built t its ->
  exists t0,
    create (boundary t) (Some (maxChildren t)) (Some (maxDepth t)) = Ok t0 /\
    clear (Some t) = Some t0.
Proof.
  intros Hb. destruct (built_inv _ _ Hb) as (Hwf & Hd & _).
  apply wf_eq in Hwf as ((Hmc & Hmd & _) & _).
  eexists. split; [apply create_Ok; assumption|].
  simpl. rewrite clear_node_eq, Hd. reflexivity.
Qed.

Lemma clear_returns_created_tree_witness :
  exists t0,
    create (boundary scenario_tree) (Some (maxChildren scenario_tree))
           (Some (maxDepth scenario_tree)) = Ok t0 /\
    clear (Some scenario_tree) = Some t0.
Proof.
  apply (clear_returns_created_tree scenario_tree scenario_items).
  exact scenario_built.
Defined.

(** ** Invariants of the trees that the module builds *)

Lemma covers_nodes (n : NodeT) :
  covers n ->
  forall m, In m (nodes n) ->
  Forall (fun i => Boundary.within (boundary m) i = true) (stored m).
Proof.
  induction n as [n IH] using NodeT_nested_ind. intros Hc m Hm.
  rewrite nodes_eq in Hm. destruct Hm as [<- | Hm].
  - apply covers_forall, Hc.
  - apply In_quadrants_list in Hm as (k & c & Hq & Hm).
    apply covers_eq in Hc as [_ Ha].
    apply (quadrants_all_qget _ _ _ _ IH Hq); [|exact Hm].
    apply (quadrants_all_qget _ _ _ _ Ha Hq).
Qed.

(** X17: in a tree built through the public interface, every item held at or
    below a quadrant of the root lies within the boundary of each node it
    is held under, from that quadrant down to the node that holds it. *)
Theorem items_lie_within_their_nodes (t : NodeT) (its : list BoundaryT)
  (k : string) (c m : NodeT) :
  built t its -> qget k (quadrants t) = Some c -> In m (nodes c) ->
  Forall (fun i => Boundary.within (boundary m) i = true) (stored m).
Proof.
  intros Hb Hq Hm. destruct (built_inv _ _ Hb) as (_ & _ & _ & Hbelow).
  apply (covers_nodes c); [|exact Hm].
  apply (quadrants_all_qget _ _ _ _ Hbelow Hq).
Qed.

Lemma items_lie_within_their_nodes_witness :
  exists c,
    top_left (quadrants scenario_tree) = Some c /\
    Forall (fun i => Boundary.within (boundary c) i = true) (stored c).
Proof.
  destruct (top_left (quadrants scenario_tree)) as [c|] eqn:E.
  - exists c. split; [reflexivity|].
    apply (items_lie_within_their_nodes scenario_tree scenario_items
             "top-left" c c scenario_built E).
    rewrite nodes_eq. left. reflexivity.
  - vm_compute in E. discriminate E.
Defined.

(** X18: in a tree built through the public interface every node has either
    no quadrant or all four, carries the thresholds of the root, and has
    quadrants exactly one level deeper than itself. *)
Theorem quadrants_all_or_nothing (t : NodeT) (its : list BoundaryT)
  (m : NodeT) :
  built t its -> In m (nodes t) ->
  (quadrants m = empty_quadrants \/ full (quadrants m)) /\
  maxChildren m = maxChildren t /\ maxDepth m = maxDepth t /\
  (forall k c, qget k (quadrants m) = Some c -> depth c = depth m + 1).
Proof.
  intros Hb Hm. destruct (built_inv _ _ Hb) as (Hwf & _).
  destruct (wf_nodes t Hwf m Hm) as (Hwfm & Hmd & Hmc & _).
  apply wf_eq in Hwfm as (_ & Hshape & Ha).
  split; [exact Hshape|]. split; [exact Hmc|]. split; [exact Hmd|].
  intros k c Hq.
  destruct (quadrants_all_qget _ _ _ _ Ha Hq) as [(Hd & _) _]. exact Hd.
Qed.

Lemma quadrants_all_or_nothing_witness :
  (quadrants scenario_tree = empty_quadrants \/
   full (quadrants scenario_tree)) /\
  maxChildren scenario_tree = maxChildren scenario_tree /\
  maxDepth scenario_tree = maxDepth scenario_tree /\
  (forall k c, qget k (quadrants scenario_tree) = Some c ->
     depth c = depth scenario_tree + 1).
Proof.
  apply (quadrants_all_or_nothing scenario_tree scenario_items).
  - exact scenario_built.
  - left. reflexivity.
Defined.

Lemma tidy_eq (n : NodeT) :
  tidy n <-> tidy_here n /\ no_direct n /\ quadrants_all tidy (quadrants n).
Proof. destruct n; reflexivity. Qed.

(** Replacing the selected quadrant by a node with the same boundary keeps
    the overlapping items straddling. *)
Lemma straddles_qset (n : NodeT) (k : string) (c d : NodeT) (i : BoundaryT) :
  qget k (quadrants n) = Some c -> boundary d = boundary c ->
  straddles n i ->
  straddles (set_quadrants n (qset k (Some d) (quadrants n))) i.
Proof.
  intros Hq Hbd (c' & Hq' & Hw). unfold straddles.
  change (determineQuadrant (set_quadrants n (qset k (Some d) (quadrants n))) i)
    with (determineQuadrant n i).
  simpl. pose proof (qget_Some_tag _ _ _ Hq) as Ht.
  pose proof (determineQuadrant_tag n i) as Ht'.
  destruct (string_dec k (determineQuadrant n i)) as [Heq | Hne].
  - rewrite <- Heq in *. exists d. rewrite qget_qset_same by exact Ht.
    split; [reflexivity|]. rewrite Hbd.
    assert (c' = c) by congruence. subst c'. exact Hw.
  - exists c'. rewrite qget_qset_other by assumption. auto.
Qed.

Lemma tidy_fresh (n : NodeT) (b : BoundaryT) :
  0 <= maxChildren n -> tidy (fresh n b).
Proof.
  intros Hmc. apply tidy_eq. split; [|split].
  - split; [intros _; split; [reflexivity | intros _; exact Hmc]|].
    intros H. discriminate H.
  - intros H. discriminate H.
  - unfold quadrants_all. simpl. tauto.
Qed.

Ltac leaf_clash H :=
  unfold Node.addChild, Node.addOverlappingChild in H;
  rewrite ?isLeaf_set_children, ?isLeaf_set_overlappingChildren in H;
  congruence.

(** [insert] keeps the items where they belong. *)
Lemma insert_tidy (n : NodeT) :
  wf n -> tidy_here n -> tidy_below n ->
  forall item n', insert n item = Ok n' ->
  tidy_here n' /\ tidy_below n' /\ (no_direct n -> no_direct n').
Proof.
  induction n as [n IH] using insert_induction.
  intros Hwf Hhere Hbelow item n'. rewrite insert_eq. unfold insert_body.
  destruct (Node.isLeaf n) eqn:Hl; simpl.
  - (* a leaf *)
    destruct Hhere as [Hleaf _]. destruct (Hleaf Hl) as [Hov Hcap].
    destruct (Node.isSplittable (Node.addChild n item)) eqn:Hs; simpl.
    + apply isSplittable_inv in Hs as Hs'. destruct Hs' as [_ Hd].
      simpl in Hd.
      pose proof Hwf as Hwf0.
      apply wf_eq in Hwf0 as ((Hmc & Hmd & Hd0) & _ & _).
      rewrite split_Ok by (simpl; lia). simpl.
      set (u := Node.addChild n item).
      set (s := set_quadrants u (split_quadrants u)).
      destruct (reduce insert (children n ++ [item]) s) as [r|e] eqn:Er;
        simpl; [|discriminate].
      intros [= <-].
      pose (J := fun acc : NodeT =>
                   (gas acc < gas n)%nat /\ wf acc /\
                   Node.isLeaf acc = false /\
                   tidy_here acc /\ tidy_below acc).
      assert (HJ : J r).
      { apply (reduce_inv J insert) with (l := children n ++ [item]) (a := s);
          [|split; [|split; [|split; [|split]]]|exact Er].
        - intros a b a' (Hg & Hwfa & Hla & Hha & Hba) E.
          pose proof (insert_gas _ _ _ E) as Hg'.
          destruct (insert_spec a Hwfa b) as (a2 & E2 & Hwf2 & _ & Hnl & _).
          assert (a2 = a') by congruence. subst a2.
          destruct (IH a Hg Hwfa Hha Hba b a' E) as (H1 & H2 & _).
          split; [lia|]. split; [exact Hwf2|].
          split; [apply Hnl, Hla|]. split; assumption.
        - assert (S (gas s) = gas n); [|lia].
          apply (gas_split_addChild n s item Hl Hs).
          apply split_Ok; simpl; lia.
        - apply wf_split; [apply wf_set_children, Hwf | exact Hd].
        - reflexivity.
        - split; [intros H; discriminate H|].
          intros _. simpl. rewrite Hov. constructor.
        - assert (Hf : forall b, tidy (fresh u b))
            by (intros b; apply tidy_fresh; simpl; lia).
          unfold tidy_below, quadrants_all. simpl.
          split; [|split; [|split]]; apply Hf. }
      destruct HJ as (_ & _ & Hlr & Hhr & Hbr).
      split; [|split].
      * split; [intros H; leaf_clash H|].
        intros _. destruct Hhr as [_ Hhr]. exact (Hhr Hlr).
      * exact Hbr.
      * intros _ _. reflexivity.
    + intros [= <-]. split; [|split].
      * split; [|intros H; leaf_clash H].
        intros _. split; [exact Hov|]. intros Hd.
        unfold Node.isSplittable in Hs. simpl in Hs, Hd |- *.
        apply andb_false_iff in Hs as [Hs | Hs].
        -- destruct (Z.gtb_spec
                       (Z.of_nat (List.length (children n ++ [item])))
                       (maxChildren n)); [discriminate | lia].
        -- apply Z.ltb_ge in Hs. lia.
      * exact Hbelow.
      * intros _ H. leaf_clash H.
  - (* a split node *)
    destruct Hhere as [_ Hstr]. specialize (Hstr Hl).
    destruct (qget _ (quadrants n)) as [c|] eqn:Hq; [|discriminate].
    destruct (Boundary.within (boundary c) item) eqn:Hin.
    + destruct (insert c item) as [d|e] eqn:E; simpl; [|discriminate].
      intros [= <-].
      assert (Hwfc : wf c).
      { apply wf_eq in Hwf as (_ & _ & Ha).
        apply (quadrants_all_qget _ _ _ _ Ha Hq). }
      pose proof (quadrants_all_qget _ _ _ _ Hbelow Hq) as Htc.
      apply tidy_eq in Htc as (Hhc & Hnc & Hbc).
      pose proof (gas_qget _ _ _ Hl Hq) as Hgc.
      destruct (IH c ltac:(lia) Hwfc Hhc Hbc item d E) as (Hhd & Hbd & Hnd).
      destruct (insert_spec c Hwfc item) as (d2 & E2 & _ & (Hfr & _) & _).
      assert (d2 = d) by congruence. subst d2.
      split; [|split].
      * split; [intros H; rewrite isLeaf_qset in H by exact Hl;
                discriminate H|].
        intros _. simpl.
        eapply Forall_impl; [|exact Hstr].
        intros i. apply (straddles_qset n _ c d i Hq Hfr).
      * unfold tidy_below. simpl.
        apply quadrants_all_qset; [exact Hbelow|].
        apply tidy_eq. auto.
      * intros Hn _. simpl. apply Hn, Hl.
    + intros [= <-]. split; [|split].
      * split; [intros H; leaf_clash H|].
        intros _. simpl. apply Forall_app. split; [exact Hstr|].
        constructor; [|constructor]. exists c. auto.
      * exact Hbelow.
      * intros Hn _. simpl. apply Hn, Hl.
Qed.

Lemma built_tidy (t : NodeT) (its : list BoundaryT) :
  built t its -> tidy t.
Proof.
  induction 1 as [b omc omd t Hc
                 |t its item t' Hb IHb Hi
                 |t its items t' Hb IHb Hbi
                 |t its t' Hb IHb Hc].
  - apply create_inv in Hc as (-> & Hmc & _).
    apply tidy_eq. split; [|split].
    + split; [intros _; split; [reflexivity | intros _; simpl; lia]|].
      intros H. discriminate H.
    + intros H. discriminate H.
    + unfold quadrants_all. simpl. tauto.
  - destruct (built_inv _ _ Hb) as (Hwf & _).
    apply tidy_eq in IHb as (Hh & Hn & Hbl).
    destruct (insert_tidy t Hwf Hh Hbl item t' Hi) as (H1 & H2 & H3).
    apply tidy_eq. auto.
  - destruct (built_inv _ _ Hb) as (Hwf & _).
    apply (reduce_inv (fun a => wf a /\ tidy a) insert)
      with (l := items) (a := t); [|split; assumption|exact Hbi].
    intros a b a' [Hwfa Hta] E.
    destruct (insert_spec a Hwfa b) as (a2 & E2 & Hwf2 & _).
    assert (a2 = a') by congruence. subst a2. split; [exact Hwf2|].
    apply tidy_eq in Hta as (Hh & Hn & Hbl).
    destruct (insert_tidy a Hwfa Hh Hbl b a' E) as (H1 & H2 & H3).
    apply tidy_eq. auto.
  - simpl in Hc. injection Hc as <-.
    destruct (built_inv _ _ Hb) as (Hwf & _).
    apply wf_eq in Hwf as ((Hmc & _) & _).
    rewrite clear_node_eq. apply tidy_eq. split; [|split].
    + split; [intros _; split; [reflexivity | intros _; simpl; lia]|].
      intros H. discriminate H.
    + intros H. discriminate H.
    + unfold quadrants_all. simpl. tauto.
Qed.

Lemma tidy_nodes (n : NodeT) :
  tidy n -> forall m, In m (nodes n) -> tidy_here m /\ no_direct m.
Proof.
  induction n as [n IH] using NodeT_nested_ind. intros Ht m Hm.
  apply tidy_eq in Ht as (Hh & Hn & Ha).
  rewrite nodes_eq in Hm. destruct Hm as [<- | Hm]; [auto|].
  apply In_quadrants_list in Hm as (k & c & Hq & Hm).
  apply (quadrants_all_qget _ _ _ _ IH Hq); [|exact Hm].
  apply (quadrants_all_qget _ _ _ _ Ha Hq).
Qed.

(** X19: in a tree built through the public interface, direct items are held
    by leaves only and overlapping items by split nodes only; a leaf above
    [maxDepth] never holds more than [maxChildren] direct items. *)
Theorem items_are_kept_where_they_belong (t : NodeT)
  (its : list BoundaryT) (m : NodeT) :
  built t its -> In m (nodes t) ->
  (Node.isLeaf m = false -> children m = []) /\
  (Node.isLeaf m = true ->
   overlappingChildren m = [] /\
   (depth m < maxDepth m ->
    Z.of_nat (List.length (children m)) <= maxChildren m)).
Proof.
  intros Hb Hm.
  destruct (tidy_nodes t (built_tidy _ _ Hb) m Hm) as [[Hleaf _] Hn].
  split; [exact Hn | exact Hleaf].
Qed.

Lemma items_are_kept_where_they_belong_witness :
  (Node.isLeaf scenario_tree = false -> children scenario_tree = []) /\
  (Node.isLeaf scenario_tree = true ->
   overlappingChildren scenario_tree = [] /\
   (depth scenario_tree < maxDepth scenario_tree ->
    Z.of_nat (List.length (children scenario_tree))
    <= maxChildren scenario_tree)).
Proof.
  apply (items_are_kept_where_they_belong scenario_tree scenario_items).
  - exact scenario_built.
  - left. reflexivity.
Defined.

(** X20: in a tree built through the public interface, an item is held as
    an overlapping item of a node only if it does not lie within the
    boundary of the quadrant that [determineQuadrant] selects for it. *)
Theorem overlapping_items_straddle (t : NodeT) (its : list BoundaryT)
  (m : NodeT) (i : BoundaryT) :
  built t its -> In m (nodes t) -> In i (overlappingChildren m) ->
  exists c,
    qget (determineQuadrant m i) (quadrants m) = Some c /\
    Boundary.within (boundary c) i = false.
Proof.
  intros Hb Hm Hi.
  destruct (tidy_nodes t (built_tidy _ _ Hb) m Hm) as [[Hleaf Hstr] _].
  destruct (Node.isLeaf m) eqn:Hl.
  - destruct (Hleaf eq_refl) as [Hov _]. rewrite Hov in Hi. destruct Hi.
  - specialize (Hstr eq_refl). rewrite Forall_forall in Hstr.
    apply Hstr, Hi.
Qed.

Lemma overlapping_items_straddle_witness :
  exists c,
    qget (determineQuadrant scenario_tree (rect 99 0 5 2))
         (quadrants scenario_tree) = Some c /\
    Boundary.within (boundary c) (rect 99 0 5 2) = false.
Proof.
  apply (overlapping_items_straddle scenario_tree scenario_items).
  - exact scenario_built.
  - left. reflexivity.
  - left. reflexivity.
Defined.

(** ** Quadrants of a square boundary *)







(** ** structs/node.js and [create] *)

(** X24: [create] throws exactly when [maxChildren] or [maxDepth] is not
    positive; otherwise it returns an empty leaf at depth 0 with the given
    boundary and thresholds, and a threshold that is left out is 4. *)
Theorem create_checks_thresholds (b : BoundaryT) (omc omd : option Z) :
  let mc := default 4 omc in
  let md := default 4 omd in
  (mc <= 0 \/ md <= 0 -> create b omc omd = Err AssertionError) /\
  (0 < mc /\ 0 < md ->
   create b omc omd = Ok (mkNode b mc md 0 empty_quadrants [] [])) /\
  create b None None = Ok (mkNode b 4 4 0 empty_quadrants [] []).
Proof.
  intros mc md. split; [|split].
  - intros H. destruct (create b omc omd) as [t|e] eqn:E.
    + apply create_inv in E. fold mc md in E. lia.
    + unfold create in E. apply node_Err in E. congruence.
  - intros [H1 H2]. apply create_Ok; assumption.
  - reflexivity.
Qed.

Lemma create_checks_thresholds_witness :
  create (rect 0 0 10 10) (Some 0) None = Err AssertionError /\
  create (rect 0 0 10 10) (Some 2) (Some 3)
  = Ok (mkNode (rect 0 0 10 10) 2 3 0 empty_quadrants [] []).
Proof.
  split.
  - apply (create_checks_thresholds (rect 0 0 10 10) (Some 0) None).
    left. simpl. lia.
  - apply (create_checks_thresholds (rect 0 0 10 10) (Some 2) (Some 3)).
    simpl. lia.
Defined.
